(** * stk: building blocks, SMILES keys and the GA driver

    A shallow embedding of three source files:
    - [src/stk/molecular/molecules/building_block.py] (the initializers
      of [BuildingBlock] and its methods on functional groups),
    - [src/stk/molecular/key_makers/smiles.py] (the [Smiles] key maker),
    - [__main__.py] (the [run] function driving the genetic algorithm,
      and [compare]).

    Python exceptions are values of [exn] carried by [result]; the
    statements of [run] act on an explicit [World] through a small
    state-and-exception monad. *)

From Stdlib Require Import Ascii String ZArith.
From stdpp Require Import gmap strings list pretty.

Set Warnings "-register-all".
Open Scope string_scope.
Open Scope list_scope.
Open Scope nat_scope.

(** ** Exceptions and results *)

Inductive exn : Type :=
  | ValueError (msg : string)
  | PopulationSizeError (msg : string)
  | OtherError (msg : string).

Inductive result (A : Type) : Type :=
  | Ok (a : A)
  | Raise (e : exn).
Arguments Ok {A} a.
Arguments Raise {A} e.

Definition result_bind {A B} (r : result A) (k : A → result B) : result B :=
  match r with
  | Ok a => k a
  | Raise e => Raise e
  end.

Definition raises {A} (r : result A) : Prop := ∃ e, r = Raise e.

Global Instance result_fmap : FMap result :=
  λ A B f r, result_bind r (λ a, Ok (f a)).

(** ** [os.path.splitext] (posixpath) *)

Module OsPath.

(** [s.rfind(c)] for a one-character [c]: the highest index holding [c],
    [-1] when there is none.  [i] is the index of the head of [s]. *)
Fixpoint rfind_from (c : ascii) (s : string) (i : Z) : Z :=
  match s with
  | EmptyString => (-1)%Z
  | String a s' =>
      let r := rfind_from c s' (i + 1) in
      if (0 <=? r)%Z then r
      else if Ascii.eqb a c then i else (-1)%Z
  end.

Definition rfind (c : ascii) (s : string) : Z := rfind_from c s 0.

(** [p[:k]] and [p[k:]] for [0 <= k]. *)
Definition slice_to (p : string) (k : Z) : string :=
  substring 0 (Z.to_nat k) p.

Definition slice_from (p : string) (k : Z) : string :=
  substring (Z.to_nat k) (String.length p - Z.to_nat k) p.

Definition sep : ascii := "/"%char.

Definition extsep : ascii := "."%char.

(** The [while filenameIndex < dotIndex] loop of [genericpath._splitext];
    [n] counts the iterations that remain, [dotIndex - filenameIndex]. *)
Fixpoint skip_leading_dots (n : nat) (p : string)
    (filenameIndex dotIndex : Z) : string * string :=
  match n with
  | O => (p, "")
  | S n' =>
      match String.get (Z.to_nat filenameIndex) p with
      | Some a =>
          if Ascii.eqb a extsep
          then skip_leading_dots n' p (filenameIndex + 1) dotIndex
          else (slice_to p dotIndex, slice_from p dotIndex)
      | None => (slice_to p dotIndex, slice_from p dotIndex)
      end
  end.

Definition splitext (p : string) : string * string :=
  let sepIndex := rfind sep p in
  let dotIndex := rfind extsep p in
  if (sepIndex <? dotIndex)%Z then
    let filenameIndex := (sepIndex + 1)%Z in
    skip_leading_dots (Z.to_nat (dotIndex - filenameIndex)) p
      filenameIndex dotIndex
  else (p, "").

End OsPath.

(** ** Building blocks ([building_block.py]) *)

Record Atom : Type := mkAtom {
  get_id : Z;
  get_atomic_number : Z;
  get_charge : Z
}.

(** [rdkit.BondType], as far as the initializer tells its members apart. *)
Inductive RdkitBondType : Type :=
  | SINGLE | DOUBLE | TRIPLE | AROMATIC | DATIVE | OTHER_BOND (code : Z).

(** The [order] handed to [Bond]: [9] for a dative bond, otherwise
    [GetBondTypeAsDouble()] of the bond type. *)
Inductive BondOrder : Type :=
  | Order9
  | AsDouble (t : RdkitBondType).

Record Bond : Type := mkBond {
  get_atom1 : Atom;
  get_atom2 : Atom;
  get_order : BondOrder
}.

(** A position matrix: one row of three coordinates per atom.  The
    initializers hand the coordinates on without computing with them; a
    coordinate is represented by the 64 bits of its float. *)
Definition Coordinate : Type := Z.

Definition PositionMatrix : Type :=
  list (Coordinate * Coordinate * Coordinate).

(** What the initializer reads off an [rdkit.Mol]. *)
Record RdkitAtom : Type := mkRdkitAtom {
  GetIdx : Z;
  GetAtomicNum : Z;
  GetFormalCharge : Z
}.

Record RdkitBond : Type := mkRdkitBond {
  GetBeginAtomIdx : nat;
  GetEndAtomIdx : nat;
  GetBondType : RdkitBondType
}.

Record Conformer : Type := mkConformer {
  GetPositions : PositionMatrix
}.

(** [GetConformer()] returns the conformer of the molecule or raises:
    rdkit answers with a [ValueError] when the molecule has none. *)
Record RdkitMol : Type := mkRdkitMol {
  GetAtoms : list RdkitAtom;
  GetBonds : list RdkitBond;
  GetConformer : result Conformer
}.

(** The state [Molecule.__init__] sets up from its arguments [atoms],
    [bonds] and [position_matrix]. *)
Record Molecule : Type := mkMolecule {
  _atoms : list Atom;
  _bonds : list Bond;
  _position_matrix : PositionMatrix
}.

(** The values of [BuildingBlock._init_funcs]: a [partial] of an rdkit
    reader together with the keyword arguments it fixes. *)
Inductive init_func : Type :=
  | MolFromMolFile (sanitize removeHs : bool)
  | MolFromPDBFile (sanitize removeHs proximityBonding : bool).

Definition _init_funcs : gmap string init_func :=
  <[".pdb" := MolFromPDBFile false false false]>
  (<[".sdf" := MolFromMolFile false false]>
  (<[".mol" := MolFromMolFile false false]> ∅)).

(** The interface of [FunctionalGroup] and [FunctionalGroupFactory]
    (package [functional_groups]) that [BuildingBlock] relies on. *)
Class FunctionalGroups (FG Factory : Type) : Type := {
  fg_get_placer_ids : FG → list Z;
  fg_with_atoms : gmap Z Atom → FG → FG;
  factory_get_functional_groups : Factory → Molecule → list FG
}.

(** The external readers: applying an entry of [_init_funcs] to a path,
    and [utilities.remake]. *)
Class RdkitIO : Type := {
  read_with : init_func → string → result RdkitMol;
  remake : RdkitMol → result RdkitMol
}.

(** Nested iterables, the input of [utilities.flatten]. *)
Inductive Nested (A : Type) : Type :=
  | Item (a : A)
  | Iterable (xs : list (Nested A)).
Arguments Item {A} a.
Arguments Iterable {A} xs.

(** Modelled from the spec: [flatten] of [stk/utilities] is not among the
    sources; following the docstring of [_normalize_placer_ids] (the
    placer ids of the functional groups are returned) it yields, in order,
    the items found in an iterable of arbitrarily nested iterables. *)
Fixpoint flatten_one {A} (x : Nested A) : list A :=
  match x with
  | Item a => [a]
  | Iterable xs =>
      (fix go (ys : list (Nested A)) : list A :=
         match ys with
         | [] => []
         | y :: ys' => flatten_one y ++ go ys'
         end) xs
  end.

Definition flatten {A} (iterable : list (Nested A)) : list A :=
  flatten_one (Iterable iterable).

(** The [functional_groups] argument of the initializers: one functional
    group, one factory, or an iterable of both. *)
Inductive FgOrFactory (FG Factory : Type) : Type :=
  | AGroup (fg : FG)
  | AFactory (f : Factory).
Arguments AGroup {FG Factory} fg.
Arguments AFactory {FG Factory} f.

Inductive FgArgument (FG Factory : Type) : Type :=
  | NonIterable (x : FgOrFactory FG Factory)
  | Several (xs : list (FgOrFactory FG Factory)).
Arguments NonIterable {FG Factory} x.
Arguments Several {FG Factory} xs.

Record BuildingBlock (FG : Type) : Type := mkBuildingBlock {
  bb_molecule : Molecule;
  _functional_groups : list FG;
  _placer_ids : list Z
}.
Arguments mkBuildingBlock {FG} _ _ _.
Arguments bb_molecule {FG} _.
Arguments _functional_groups {FG} _.
Arguments _placer_ids {FG} _.

Section BuildingBlockDefs.
Context {FG Factory : Type} `{!FunctionalGroups FG Factory} `{!RdkitIO}.

Definition _normalize_placer_ids (self : Molecule)
    (placer_ids : option (list Z)) (functional_groups : list FG) : list Z :=
  match placer_ids with
  | Some ids => ids
  | None =>
      match functional_groups with
      | _ :: _ =>
          flatten
            ((λ functional_group,
                Iterable (Item <$> fg_get_placer_ids functional_group))
               <$> functional_groups)
      | [] => get_id <$> _atoms self
      end
  end.

Definition _extract_functional_groups (self : Molecule)
    (functional_groups : FgArgument FG Factory) : list FG :=
  let functional_groups :=
    match functional_groups with
    | NonIterable x => [x]
    | Several xs => xs
    end in
  functional_groups ≫= λ functional_group,
    match functional_group with
    | AGroup fg => [fg]
    | AFactory f => factory_get_functional_groups f self
    end.

(** [{a.get_id(): a for a in self._atoms}]: a later atom replaces an
    earlier one with the same id. *)
Definition atom_map_of (atoms : list Atom) : gmap Z Atom :=
  foldl (λ m a, <[get_id a := a]> m) ∅ atoms.

Definition _with_functional_groups (self : Molecule)
    (functional_groups : list FG) : list FG :=
  fg_with_atoms (atom_map_of (_atoms self)) <$> functional_groups.

(** [BuildingBlock.init]. *)
Definition init (atoms : list Atom) (bonds : list Bond)
    (position_matrix : PositionMatrix)
    (functional_groups : FgArgument FG Factory)
    (placer_ids : option (list Z)) : BuildingBlock FG :=
  let building_block := mkMolecule atoms bonds position_matrix in
  let functional_groups :=
    _extract_functional_groups building_block functional_groups in
  let fgs := _with_functional_groups building_block functional_groups in
  mkBuildingBlock building_block fgs
    (_normalize_placer_ids building_block placer_ids fgs).

(** [atoms[i]]: an [IndexError] outside the tuple. *)
Definition atom_at (atoms : list Atom) (i : nat) : result Atom :=
  match atoms !! i with
  | Some a => Ok a
  | None => Raise (OtherError "IndexError")
  end.

Fixpoint bonds_of (atoms : list Atom) (bs : list RdkitBond)
    : result (list Bond) :=
  match bs with
  | [] => Ok []
  | b :: bs' =>
      result_bind (atom_at atoms (GetBeginAtomIdx b)) (λ a1,
      result_bind (atom_at atoms (GetEndAtomIdx b)) (λ a2,
      result_bind (bonds_of atoms bs') (λ rest,
      Ok (mkBond a1 a2
            (match GetBondType b with
             | DATIVE => Order9
             | t => AsDouble t
             end) :: rest))))
  end.

(** [BuildingBlock._init_from_rdkit_mol] / [init_from_rdkit_mol]: the
    atoms, then the bonds, then the positions of the conformer; whichever
    of these raises first ends the initializer. *)
Definition init_from_rdkit_mol (molecule : RdkitMol)
    (functional_groups : FgArgument FG Factory)
    (placer_ids : option (list Z)) : result (BuildingBlock FG) :=
  let atoms :=
    (λ a, mkAtom (GetIdx a) (GetAtomicNum a) (GetFormalCharge a))
      <$> GetAtoms molecule in
  result_bind (bonds_of atoms (GetBonds molecule)) (λ bonds,
  result_bind (GetConformer molecule) (λ conformer,
  let position_matrix := GetPositions conformer in
  let self := mkMolecule atoms bonds position_matrix in
  let fgs :=
    _with_functional_groups self
      (_extract_functional_groups self functional_groups) in
  Ok (mkBuildingBlock self fgs
        (_normalize_placer_ids self placer_ids fgs)))).

Definition quote : string := String (ascii_of_nat 34) EmptyString.

(** Lines 507-512 of [init_from_file] together with the dictionary access
    of line 517: the extension check and the choice of the reader. *)
Definition init_func_for (path : string) : result init_func :=
  let '(_, extension) := OsPath.splitext path in
  match _init_funcs !! extension with
  | None =>
      Raise (ValueError
        ("Unable to initialize from " +:+ quote +:+ extension +:+ quote
           +:+ " files."))
  | Some f => Ok f
  end.

(** [BuildingBlock.init_from_file]. *)
Definition init_from_file (path : string)
    (functional_groups : FgArgument FG Factory)
    (placer_ids : option (list Z)) : result (BuildingBlock FG) :=
  result_bind (init_func_for path) (λ f,
  result_bind (read_with f path) (λ loaded,
  result_bind (remake loaded) (λ molecule,
  init_from_rdkit_mol molecule functional_groups placer_ids))).

(** [BuildingBlock.get_placer_ids]. *)
Definition get_placer_ids (self : BuildingBlock FG) : list Z :=
  _placer_ids self.

End BuildingBlockDefs.

(** ** The SMILES key maker ([smiles.py]) *)

(** A molecule as a Python object: [object_id] stands for its identity in
    memory ([id()]), the rest is its structure. *)
Record MoleculeObject : Type := mkMoleculeObject {
  object_id : N;
  structure : Molecule
}.

(** A [Smiles] instance: [__init__] stores nothing, so an instance is
    its identity alone. *)
Record Smiles : Type := mkSmiles {
  smiles_object_id : N
}.

(** [key_makers/utilities.get_smiles], not among the sources. *)
Class KeyMakerUtilities : Type := {
  get_smiles : MoleculeObject → string
}.

Definition get_key_name (self : Smiles) : string := "SMILES".

Definition get_key `{!KeyMakerUtilities} (self : Smiles)
    (molecule : MoleculeObject) : string :=
  get_smiles molecule.

(** ** The GA driver ([__main__.py]) *)

(** Directories and files are named by their components from the root:
    [os.getcwd()] is such a list, [os.path.join(os.getcwd(), name)]
    appends to it, and [os.path.basename] takes the last component. *)
Definition path : Type := list string.

Definition basename (p : path) : string := default "" (last p).

(** A member of a population.  [identity] is the key under which
    duplicates are recognised; fitness values are carried as integers. *)
Record MacroMolecule : Type := mkMacroMolecule {
  identity : string;
  file : path;
  fitness : option Z
}.

(** A population: its own members and its subpopulations. *)
Inductive Population : Type :=
  | mkPopulation (members : list MacroMolecule)
                 (populations : list Population).

Definition members (pop : Population) : list MacroMolecule :=
  match pop with mkPopulation ms _ => ms end.

Definition populations (pop : Population) : list Population :=
  match pop with mkPopulation _ ps => ps end.

(** Modelled from the spec: the [Population] class is not among the
    sources.  Flattened iteration yields all candidates across all
    descendant nodes: the members of a node, then those of its
    subpopulations in order. *)
Fixpoint all_members (pop : Population) : list MacroMolecule :=
  match pop with
  | mkPopulation ms ps =>
      ms ++ (fix go (qs : list Population) : list MacroMolecule :=
               match qs with
               | [] => []
               | q :: qs' => all_members q ++ go qs'
               end) ps
  end.

(** Modelled from the spec: [len(pop)], the count of flattened candidates. *)
Definition len (pop : Population) : nat := length (all_members pop).

(** Modelled from the spec: [Population(ga_tools, *members)], a population
    holding exactly the given members and no subpopulation. *)
Definition Population_of (ms : list MacroMolecule) : Population :=
  mkPopulation ms [].

(** Modelled from the spec: [self + other] (the spec's [merge]) is a new
    population that keeps both operands as its subpopulations. *)
Definition add (self other : Population) : Population :=
  mkPopulation [] [self; other].

(** Modelled from the spec: the scan that keeps, for each identity, the
    first occurrence only; [seen] holds the identities met so far. *)
Fixpoint dedupe (seen : gset string) (ms : list MacroMolecule)
    : list MacroMolecule * gset string :=
  match ms with
  | [] => ([], seen)
  | m :: ms' =>
      if decide (identity m ∈ seen) then dedupe seen ms'
      else
        let r := dedupe ({[identity m]} ∪ seen) ms' in
        (m :: r.1, r.2)
  end.

(** Modelled from the spec: [remove_duplicates] keeps one representative
    per identity, the first in flattening order, and preserves the tree
    shape.  This is its effect read as a function on population values. *)
Fixpoint remove_duplicates_from (seen : gset string) (pop : Population)
    : Population * gset string :=
  match pop with
  | mkPopulation ms ps =>
      let r := dedupe seen ms in
      let rs :=
        (fix go (seen : gset string) (qs : list Population)
            : list Population * gset string :=
           match qs with
           | [] => ([], seen)
           | q :: qs' =>
               let rq := remove_duplicates_from seen q in
               let rqs := go rq.2 qs' in
               (rq.1 :: rqs.1, rqs.2)
           end) r.2 ps in
      (mkPopulation r.1 rs.1, rs.2)
  end.

Definition remove_duplicates (pop : Population) : Population :=
  (remove_duplicates_from ∅ pop).1.



(** [f] applied to every member, the tree shape kept. *)
Fixpoint map_members (f : MacroMolecule → MacroMolecule) (pop : Population)
    : Population :=
  match pop with
  | mkPopulation ms ps =>
      mkPopulation (f <$> ms)
        ((fix go (qs : list Population) : list Population :=
            match qs with
            | [] => []
            | q :: qs' => map_members f q :: go qs'
            end) ps)
  end.

(** What [GAInput] reads from the input file, as far as [run] uses it. *)
Record GAInput : Type := mkGAInput {
  input_file : path;
  init_func_name : string;
  pop_size : nat;
  num_generations : nat
}.

(** The strategies bound to the run ([GATools] and the [Population]
    methods that delegate to them).  They are pluggable and may consult
    and update hidden state of type [E] (random generators, caches, the
    file system), which is threaded through every call.  The initializer
    receives [size] only when it is not [load]. *)
Class GATools (E : Type) : Type := {
  pop_init : string → option nat → E → Population * E;
  optimize_population : Population → E → list MacroMolecule * E;
  calculate_member_fitness : Population → E → list MacroMolecule * E;
  normalize_fitness_values : Population → E → Population * E;
  gen_offspring : Population → E → Population * E;
  gen_mutants : Population → E → Population * E;
  gen_next_gen : Population → nat → E → Population * E;
  exit_func : option (Population → E → bool * E)
}.

(** Modelled from the spec: [pop.exit()] evaluates the optional exit
    predicate; when none is configured the answer is [False]. *)
Definition exit `{!GATools E} (pop : Population) (e : E) : bool * E :=
  match exit_func with
  | Some f => f pop e
  | None => (false, e)
  end.

(** The actions of [run] that are visible from outside, with the
    arguments they are called on. *)
Inductive Event : Type :=
  | EvKillMacromodel
  | EvArchiveOutput
  | EvTarOutput
  | EvMkdir (dir : path)
  | EvChdir (dir : path)
  | EvCopyFile (src dst : path)
  | EvReadInput (name : string)
  | EvPrintInfo (info : string)
  | EvPrintMembers (pop : Population)
  | EvPopInit (name : string) (size : option nat)
  | EvOptimize (pop : Population)
  | EvFitness (pop : Population)
  | EvNormalize (pop : Population)
  | EvGenOffspring (pop : Population)
  | EvGenMutants (pop : Population)
  | EvAdd (pop offspring mutants : Population)
  | EvRemoveDuplicates (pop : Population)
  | EvSelect (pop : Population) (size : nat)
  | EvWrite (dir : path) (pop : Population)
  | EvDump (dir : path) (name : string) (pop : Population)
  | EvProgressUpdate (pop : Population)
  | EvExit (pop : Population) (answer : bool)
  | EvPlotEpp
  | EvDumpProgress (file : path).

(** The state [run] acts on: the actions so far, the current directory,
    the mutable attribute [ga_input.pop_size] (set when the input file
    is read), and the hidden state of the strategies. *)
Record World (E : Type) : Type := mkWorld {
  log : list Event;
  cwd : path;
  ga_input_pop_size : nat;
  env : E
}.
Arguments mkWorld {E} _ _ _ _.
Arguments log {E} _.
Arguments cwd {E} _.
Arguments ga_input_pop_size {E} _.
Arguments env {E} _.

(** State and exceptions: a computation maps a world to its outcome and
    the world it leaves behind. *)
Definition M (E A : Type) : Type := World E → result A * World E.

Definition ret {E A} (a : A) : M E A := λ w, (Ok a, w).

Definition bind {E A B} (m : M E A) (k : A → M E B) : M E B :=
  λ w,
    let r := m w in
    match r.1 with
    | Ok a => k a r.2
    | Raise e => (Raise e, r.2)
    end.

Definition raise {E A} (e : exn) : M E A := λ w, (Raise e, w).

Declare Scope ga_scope.
Delimit Scope ga_scope with ga.
Notation "x <- m ;; k" := (bind m (λ x, k))
  (at level 100, m at next level, right associativity) : ga_scope.
Notation "m ;; k" := (bind m (λ _, k))
  (at level 100, right associativity) : ga_scope.

Section Driver.
Context {E : Type} `{!GATools E}.
Local Open Scope ga_scope.

(** An action that changes nothing but the log. *)
Definition emit (ev : Event) : M E unit :=
  λ w, (Ok tt,
        mkWorld (log w ++ [ev]) (cwd w) (ga_input_pop_size w) (env w)).

(** A call of a strategy: it is logged, and the hidden state moves on. *)
Definition call {A} (f : E → A * E) (ev : A → Event) : M E A :=
  λ w,
    let r := f (env w) in
    (Ok r.1,
     mkWorld (log w ++ [ev r.1]) (cwd w) (ga_input_pop_size w) r.2).

Definition getcwd : M E path := λ w, (Ok (cwd w), w).

(** [os.chdir] to a directory given in full. *)
Definition chdir (dir : path) : M E unit :=
  λ w, (Ok tt,
        mkWorld (log w ++ [EvChdir dir]) dir (ga_input_pop_size w) (env w)).

(** [os.chdir(name)] for a name relative to the current directory. *)
Definition chdir_into (name : string) : M E unit :=
  d <- getcwd ;; chdir (d ++ [name]).

(** [os.mkdir(name)]. *)
Definition mkdir (name : string) : M E unit :=
  d <- getcwd ;; emit (EvMkdir (d ++ [name])).

Definition get_pop_size : M E nat := λ w, (Ok (ga_input_pop_size w), w).

(** [ga_input.pop_size = n]. *)
Definition set_pop_size (n : nat) : M E unit :=
  λ w, (Ok tt, mkWorld (log w) (cwd w) n (env w)).

Definition print_info (info : string) : M E unit := emit (EvPrintInfo info).

Definition kill_macromodel : M E unit := emit EvKillMacromodel.

Definition archive_output : M E unit := emit EvArchiveOutput.

Definition tar_output : M E unit := emit EvTarOutput.

(** [pop.write(os.getcwd())]. *)
Definition write_here (pop : Population) : M E unit :=
  d <- getcwd ;; emit (EvWrite d pop).

(** [pop.dump(os.path.join(os.getcwd(), name))]. *)
Definition dump_here (name : string) (pop : Population) : M E unit :=
  d <- getcwd ;; emit (EvDump d name pop).

(** [pop = Population(pop.ga_tools, *pop.optimize_population())]. *)
Definition optimize (pop : Population) : M E Population :=
  ms <- call (optimize_population pop) (λ _, EvOptimize pop) ;;
  ret (Population_of ms).

(** [pop = Population(pop.ga_tools, *pop.calculate_member_fitness())]. *)
Definition evaluate (pop : Population) : M E Population :=
  ms <- call (calculate_member_fitness pop) (λ _, EvFitness pop) ;;
  ret (Population_of ms).

(** [pop.normalize_fitness_values()]: [pop] afterwards. *)
Definition normalize (pop : Population) : M E Population :=
  call (normalize_fitness_values pop) (λ _, EvNormalize pop).

(** The loop printing every member with its fitness values. *)
Definition print_members (pop : Population) : M E unit :=
  emit (EvPrintMembers pop).

(** Lines 56-79: the initial population. *)
Definition initial_population (ga_input : GAInput) : M E Population :=
  let name := init_func_name ga_input in
  print_info "Generating initial population." ;;
  if String.eqb name "load" then
    pop <- call (pop_init name None) (λ _, EvPopInit name None) ;;
    set_pop_size (len pop) ;;
    d <- getcwd ;;
    let pop :=
      map_members
        (λ mem,
           mkMacroMolecule (identity mem) (d ++ [basename (file mem)])
             (fitness mem))
        pop in
    write_here pop ;;
    ret pop
  else
    size <- get_pop_size ;;
    call (pop_init name (Some size)) (λ _, EvPopInit name (Some size)).

(** Lines 107-180: the body of the loop over the generations.  The
    boolean is the answer of [pop.exit()], on which the loop breaks. *)
Definition generation (root_dir : path) (ga_input : GAInput) (x : nat)
    (pop : Population) : M E (Population * bool) :=
  size <- get_pop_size ;;
  if negb (len pop =? size)%nat then
    raise (PopulationSizeError "Population has the wrong size.")
  else
    print_info
      ("Generation " +:+ pretty x +:+ " of "
         +:+ pretty (num_generations ga_input) +:+ ".") ;;
    chdir root_dir ;;
    mkdir (pretty x) ;;
    chdir_into (pretty x) ;;
    print_info "Starting crossovers." ;;
    offspring <- call (gen_offspring pop) (λ _, EvGenOffspring pop) ;;
    print_info "Starting mutations." ;;
    mutants <- call (gen_mutants pop) (λ _, EvGenMutants pop) ;;
    print_info "Adding offsping and mutants to population." ;;
    emit (EvAdd pop offspring mutants) ;;
    let pop := add pop (add offspring mutants) in
    print_info "Removing duplicates, if any." ;;
    emit (EvRemoveDuplicates pop) ;;
    let pop := remove_duplicates pop in
    dump_here "preselection_pop_dump" pop ;;
    print_info "Optimizing the population." ;;
    pop <- optimize pop ;;
    print_info "Calculating the fitness of population members." ;;
    pop <- evaluate pop ;;
    print_info "Normalizing fitness values." ;;
    pop <- normalize pop ;;
    print_members pop ;;
    print_info "Selecting members of the next generation." ;;
    size <- get_pop_size ;;
    pop <- call (gen_next_gen pop size) (λ _, EvSelect pop size) ;;
    print_info "Placing selected members in `selected` directory." ;;
    mkdir "selected" ;;
    chdir_into "selected" ;;
    write_here pop ;;
    dump_here "pop_dump" pop ;;
    print_info "Recording progress." ;;
    emit (EvProgressUpdate pop) ;;
    stop <- call (exit pop) (λ answer, EvExit pop answer) ;;
    ret (pop, stop).

(** [for x in range(1, num_generations+1): ...; if pop.exit(): break],
    over the values of [x] still to come. *)
Fixpoint ga_loop (root_dir : path) (ga_input : GAInput) (xs : list nat)
    (pop : Population) : M E Population :=
  match xs with
  | [] => ret pop
  | x :: xs' =>
      r <- generation root_dir ga_input x pop ;;
      if r.2 then ret r.1 else ga_loop root_dir ga_input xs' r.1
  end.

(** [run].  The value is the population bound to [pop] when the
    function ends. *)
Definition run (ga_input : GAInput) : M E Population :=
  launch_dir <- getcwd ;;
  kill_macromodel ;;
  archive_output ;;
  mkdir "output" ;;
  emit (EvCopyFile (input_file ga_input)
          (launch_dir ++ ["output"; basename (input_file ga_input)])) ;;
  chdir_into "output" ;;
  root_dir <- getcwd ;;
  emit (EvReadInput (basename (input_file ga_input))) ;;
  set_pop_size (pop_size ga_input) ;;
  mkdir "initial" ;;
  chdir_into "initial" ;;
  pop <- initial_population ga_input ;;
  print_info "Optimizing the population." ;;
  pop <- optimize pop ;;
  print_info "Calculating the fitness of population members." ;;
  pop <- evaluate pop ;;
  print_info "Normalizing fitness values." ;;
  pop <- normalize pop ;;
  print_members pop ;;
  dump_here "pop_dump" pop ;;
  print_info "Recording progress." ;;
  emit (EvProgressUpdate pop) ;;
  pop <- ga_loop root_dir ga_input (seq 1 (num_generations ga_input)) pop ;;
  kill_macromodel ;;
  print_info "Plotting EPP." ;;
  emit EvPlotEpp ;;
  chdir root_dir ;;
  emit (EvDumpProgress (root_dir ++ ["progress.dmp"])) ;;
  chdir launch_dir ;;
  tar_output ;;
  archive_output ;;
  ret pop.

(** The part of [run] that precedes the loop; it hands over
    [launch_dir], [root_dir] and [pop]. *)
Definition prologue (ga_input : GAInput) : M E (path * path * Population) :=
  (launch_dir <- getcwd ;;
   kill_macromodel ;;
   archive_output ;;
   mkdir "output" ;;
   emit (EvCopyFile (input_file ga_input)
           (launch_dir ++ ["output"; basename (input_file ga_input)])) ;;
   chdir_into "output" ;;
   root_dir <- getcwd ;;
   emit (EvReadInput (basename (input_file ga_input))) ;;
   set_pop_size (pop_size ga_input) ;;
   mkdir "initial" ;;
   chdir_into "initial" ;;
   pop <- initial_population ga_input ;;
   print_info "Optimizing the population." ;;
   pop <- optimize pop ;;
   print_info "Calculating the fitness of population members." ;;
   pop <- evaluate pop ;;
   print_info "Normalizing fitness values." ;;
   pop <- normalize pop ;;
   print_members pop ;;
   dump_here "pop_dump" pop ;;
   print_info "Recording progress." ;;
   emit (EvProgressUpdate pop) ;;
   ret (launch_dir, root_dir, pop)).

(** The part of [run] that follows the loop. *)
Definition finish (launch_dir : path) (pop : Population) : M E Population :=
  (kill_macromodel ;;
   print_info "Plotting EPP." ;;
   emit EvPlotEpp ;;
   chdir (launch_dir ++ ["output"]) ;;
   emit (EvDumpProgress ((launch_dir ++ ["output"]) ++ ["progress.dmp"])) ;;
   chdir launch_dir ;;
   tar_output ;;
   archive_output ;;
   ret pop).

End Driver.

(** ** The executed generations of a run, as data

    One record per executed loop body: the values the local variables of
    [run] take in it. *)

Record Generation (E : Type) : Type := mkGeneration {
  g_index : nat;
  g_parents : Population;
  g_offspring : Population;
  g_mutants : Population;
  g_merged : Population;
  g_optimized : Population;
  g_evaluated : Population;
  g_normalized : Population;
  g_survivors : Population;
  g_exit : bool;
  g_env : E
}.
Arguments mkGeneration {E} _ _ _ _ _ _ _ _ _ _ _.
Arguments g_index {E} _.
Arguments g_parents {E} _.
Arguments g_offspring {E} _.
Arguments g_mutants {E} _.
Arguments g_merged {E} _.
Arguments g_optimized {E} _.
Arguments g_evaluated {E} _.
Arguments g_normalized {E} _.
Arguments g_survivors {E} _.
Arguments g_exit {E} _.
Arguments g_env {E} _.

(** The stages of a generation. *)
Inductive Stage : Type :=
  | VARY | MERGE_DEDUP | OPTIMIZE | EVALUATE | NORMALIZE | SELECT
  | CHECKPOINT | EXIT_CHECK.

(** The stage an action belongs to; printing, directory changes and the
    dump of the population before selection belong to none. *)
Definition stage_of (ev : Event) : option Stage :=
  match ev with
  | EvGenOffspring _ | EvGenMutants _ => Some VARY
  | EvAdd _ _ _ | EvRemoveDuplicates _ => Some MERGE_DEDUP
  | EvOptimize _ => Some OPTIMIZE
  | EvFitness _ => Some EVALUATE
  | EvNormalize _ => Some NORMALIZE
  | EvSelect _ _ => Some SELECT
  | EvWrite _ _ | EvProgressUpdate _ => Some CHECKPOINT
  | EvDump _ name _ =>
      if String.eqb name "pop_dump" then Some CHECKPOINT else None
  | EvExit _ _ => Some EXIT_CHECK
  | _ => None
  end.

Definition stages (t : list Event) : list Stage := omap stage_of t.

Definition has_stage (ev : Event) : bool :=
  if stage_of ev is Some _ then true else false.

(** Moving a directory: [archive_output] and [tar_output]. *)
Definition is_move (ev : Event) : bool :=
  match ev with
  | EvArchiveOutput | EvTarOutput => true
  | _ => false
  end.

Definition is_exit (ev : Event) : bool :=
  match ev with
  | EvExit _ _ => true
  | _ => false
  end.

(** The directories a sequence of actions creates, in order. *)
Definition made_dirs (t : list Event) : list path :=
  omap (λ ev, if ev is EvMkdir d then Some d else None) t.

(** Those of them that belong to the generations [1..n]: the
    directories [str(x)] directly below [root_dir]. *)
Definition generation_dirs (root_dir : path) (n : nat) (t : list Event)
    : list path :=
  filter (λ d, d ∈ (λ x, root_dir ++ [pretty x]) <$> seq 1 n) (made_dirs t).

(** The sizes survivor selection is asked for, in order. *)
Definition selection_sizes (t : list Event) : list nat :=
  omap (λ ev, if ev is EvSelect _ size then Some size else None) t.

(** The same input with another configured population size. *)
Definition with_pop_size (k : nat) (ga_input : GAInput) : GAInput :=
  mkGAInput (input_file ga_input) (init_func_name ga_input) k
    (num_generations ga_input).

(** The stage-relevant actions of one generation, in order. *)
Definition generation_stages : list Stage :=
  [ VARY; VARY; MERGE_DEDUP; MERGE_DEDUP; OPTIMIZE; EVALUATE; NORMALIZE;
    SELECT; CHECKPOINT; CHECKPOINT; CHECKPOINT; EXIT_CHECK ].

Section Generations.
Context {E : Type} `{!GATools E}.

Definition generation_of (x : nat) (pop : Population) (size : nat) (e : E)
    : Generation E :=
  let off := gen_offspring pop e in
  let mut := gen_mutants pop off.2 in
  let merged := remove_duplicates (add pop (add off.1 mut.1)) in
  let opt := optimize_population merged mut.2 in
  let eva := calculate_member_fitness (Population_of opt.1) opt.2 in
  let nor := normalize_fitness_values (Population_of eva.1) eva.2 in
  let sel := gen_next_gen nor.1 size nor.2 in
  let ex := exit sel.1 sel.2 in
  mkGeneration x pop off.1 mut.1 merged (Population_of opt.1)
    (Population_of eva.1) nor.1 sel.1 ex.1 ex.2.

(** The generations executed from a population [pop] with the indices
    [xs] to come: none once the size check fails, none after an exit. *)
Fixpoint generations_of (xs : list nat) (pop : Population) (size : nat)
    (e : E) : list (Generation E) :=
  match xs with
  | [] => []
  | x :: xs' =>
      if (len pop =? size)%nat then
        let g := generation_of x pop size e in
        g :: (if g_exit g then []
              else generations_of xs' (g_survivors g) size (g_env g))
      else []
  end.

(** What the loop ends with. *)
Fixpoint loop_outcome (xs : list nat) (pop : Population) (size : nat)
    (e : E) : result Population :=
  match xs with
  | [] => Ok pop
  | x :: xs' =>
      if (len pop =? size)%nat then
        let g := generation_of x pop size e in
        if g_exit g then Ok (g_survivors g)
        else loop_outcome xs' (g_survivors g) size (g_env g)
      else Raise (PopulationSizeError "Population has the wrong size.")
  end.

(** The actions of one executed generation. *)
Definition generation_events (root_dir : path) (ga_input : GAInput)
    (size : nat) (g : Generation E) : list Event :=
  let dir := root_dir ++ [pretty (g_index g)] in
  [ EvPrintInfo
      ("Generation " +:+ pretty (g_index g) +:+ " of "
         +:+ pretty (num_generations ga_input) +:+ ".");
    EvChdir root_dir;
    EvMkdir dir;
    EvChdir dir;
    EvPrintInfo "Starting crossovers.";
    EvGenOffspring (g_parents g);
    EvPrintInfo "Starting mutations.";
    EvGenMutants (g_parents g);
    EvPrintInfo "Adding offsping and mutants to population.";
    EvAdd (g_parents g) (g_offspring g) (g_mutants g);
    EvPrintInfo "Removing duplicates, if any.";
    EvRemoveDuplicates
      (add (g_parents g) (add (g_offspring g) (g_mutants g)));
    EvDump dir "preselection_pop_dump" (g_merged g);
    EvPrintInfo "Optimizing the population.";
    EvOptimize (g_merged g);
    EvPrintInfo "Calculating the fitness of population members.";
    EvFitness (g_optimized g);
    EvPrintInfo "Normalizing fitness values.";
    EvNormalize (g_evaluated g);
    EvPrintMembers (g_normalized g);
    EvPrintInfo "Selecting members of the next generation.";
    EvSelect (g_normalized g) size;
    EvPrintInfo "Placing selected members in `selected` directory.";
    EvMkdir (dir ++ ["selected"]);
    EvChdir (dir ++ ["selected"]);
    EvWrite (dir ++ ["selected"]) (g_survivors g);
    EvDump (dir ++ ["selected"]) "pop_dump" (g_survivors g);
    EvPrintInfo "Recording progress.";
    EvProgressUpdate (g_survivors g);
    EvExit (g_survivors g) (g_exit g) ].

(** The run up to the loop: the actions, the value of
    [ga_input.pop_size], the population and the hidden state with which
    the loop is entered. *)
Record Start : Type := mkStart {
  s_events : list Event;
  s_pop_size : nat;
  s_restored : Population;
  s_pop : Population;
  s_env : E
}.

Definition start_of (ga_input : GAInput) (launch_dir : path) (e : E)
    : Start :=
  let root_dir := launch_dir ++ ["output"] in
  let dir := root_dir ++ ["initial"] in
  let name := init_func_name ga_input in
  let load := String.eqb name "load" in
  let size_arg := if load then None else Some (pop_size ga_input) in
  let ini := pop_init name size_arg e in
  let size := if load then len ini.1 else pop_size ga_input in
  let pop0 :=
    if load then
      map_members
        (λ mem,
           mkMacroMolecule (identity mem) (dir ++ [basename (file mem)])
             (fitness mem))
        ini.1
    else ini.1 in
  let opt := optimize_population pop0 ini.2 in
  let eva := calculate_member_fitness (Population_of opt.1) opt.2 in
  let nor := normalize_fitness_values (Population_of eva.1) eva.2 in
  mkStart
    ([ EvKillMacromodel;
       EvArchiveOutput;
       EvMkdir root_dir;
       EvCopyFile (input_file ga_input)
         (launch_dir ++ ["output"; basename (input_file ga_input)]);
       EvChdir root_dir;
       EvReadInput (basename (input_file ga_input));
       EvMkdir dir;
       EvChdir dir;
       EvPrintInfo "Generating initial population.";
       EvPopInit name size_arg ]
     ++ (if load then [EvWrite dir pop0] else [])
     ++ [ EvPrintInfo "Optimizing the population.";
          EvOptimize pop0;
          EvPrintInfo "Calculating the fitness of population members.";
          EvFitness (Population_of opt.1);
          EvPrintInfo "Normalizing fitness values.";
          EvNormalize (Population_of eva.1);
          EvPrintMembers nor.1;
          EvDump dir "pop_dump" nor.1;
          EvPrintInfo "Recording progress.";
          EvProgressUpdate nor.1 ])
    size ini.1 nor.1 nor.2.

(** The actions of [run] after the loop. *)
Definition final_events (launch_dir : path) : list Event :=
  let root_dir := launch_dir ++ ["output"] in
  [ EvKillMacromodel;
    EvPrintInfo "Plotting EPP.";
    EvPlotEpp;
    EvChdir root_dir;
    EvDumpProgress (root_dir ++ ["progress.dmp"]);
    EvChdir launch_dir;
    EvTarOutput;
    EvArchiveOutput ].

(** The population bound to [pop] once the generations [gens] have been
    executed from [pop]. *)
Definition pop_after (pop : Population) (gens : list (Generation E))
    : Population :=
  match last gens with
  | Some g => g_survivors g
  | None => pop
  end.

End Generations.
Arguments generation_of : simpl never.

(** ** Lines 131 and 135 of [run] on Python objects

    [pop += offspring + mutants] and [pop.remove_duplicates()] act on
    [Population] objects that the variables of [run] refer to.  An object
    is a location; the store holds the [members] list of every object;
    the [populations] attribute is the list of references below a
    reference.  The [Population] class is not among the sources: [+]
    follows the specification, and what [remove_duplicates] does is left
    open, as a parameter. *)

Inductive PopRef : Type :=
  | mkRef (obj : nat) (subs : list PopRef).

Abbreviation Store := (gmap nat (list MacroMolecule)).

(** The objects reachable from a reference, in flattening order. *)
Fixpoint objects (r : PopRef) : list nat :=
  match r with
  | mkRef l subs =>
      l :: (fix go (qs : list PopRef) : list nat :=
              match qs with
              | [] => []
              | q :: qs' => objects q ++ go qs'
              end) subs
  end.

(** The population value a reference stands for in a store. *)
Fixpoint contents (st : Store) (r : PopRef) : Population :=
  match r with
  | mkRef l subs =>
      mkPopulation (default [] (st !! l))
        ((fix go (qs : list PopRef) : list Population :=
            match qs with
            | [] => []
            | q :: qs' => contents st q :: go qs'
            end) subs)
  end.










Fixpoint remove_duplicates_from_list (seen : gset string)
    (qs : list Population) : list Population * gset string :=
  match qs with
  | [] => ([], seen)
  | q :: qs' =>
      let rq := remove_duplicates_from seen q in
      let rqs := remove_duplicates_from_list rq.2 qs' in
      (rq.1 :: rqs.1, rqs.2)
  end.

Fixpoint objects_list (qs : list PopRef) : list nat :=
  match qs with
  | [] => []
  | q :: qs' => objects q ++ objects_list qs'
  end.

Fixpoint contents_list (st : Store) (qs : list PopRef) : list Population :=
  match qs with
  | [] => []
  | q :: qs' => contents st q :: contents_list st qs'
  end.

(** ** Claims in the words of the specification *)

Section SpecWords.
Context {E : Type} `{!GATools E}.

(** The size check "also applies after survivor selection": a generation
    whose survivors have the wrong size makes the run fail. *)
Definition fatal_check_after_every_selection (ga_input : GAInput)
    (w : World E) : Prop :=
  let s := start_of ga_input (cwd w) (env w) in
  ∀ g,
    g ∈ generations_of (seq 1 (num_generations ga_input)) (s_pop s)
          (s_pop_size s) (s_env s) →
    len (g_survivors g) ≠ s_pop_size s →
    (run ga_input w).1 =
      Raise (PopulationSizeError "Population has the wrong size.").

(** "Exactly 2 per-generation checkpoint directories". *)
Definition two_generation_directories (ga_input : GAInput) (w : World E)
    : Prop :=
  length
    (generation_dirs (cwd w ++ ["output"]) (num_generations ga_input)
       (log (run ga_input w).2)) = 2.

End SpecWords.

(** ** Sample strategies and inputs *)

Definition ethane : MacroMolecule :=
  mkMacroMolecule "CC" ["old"; "0.mol"] (Some 3%Z).

Definition ethane_again : MacroMolecule :=
  mkMacroMolecule "CC" ["old"; "1.mol"] (Some 3%Z).

Definition propane : MacroMolecule :=
  mkMacroMolecule "CCC" ["old"; "2.mol"] (Some 5%Z).

Definition butane : MacroMolecule :=
  mkMacroMolecule "CCCC" ["old"; "3.mol"] (Some 7%Z).

(** Strategies whose hidden state counts the calls made so far.  The
    initializer returns [initial] (cut to [size] when one is given), no
    offspring or mutants are produced, and selection keeps the first
    [size] members. *)
Definition sample_tools (initial : list MacroMolecule)
    (exit_func : option (Population → nat → bool * nat)) : GATools nat :=
  {| pop_init _ size e :=
       (Population_of (if size is Some k then take k initial else initial),
        S e);
     optimize_population pop e := (all_members pop, S e);
     calculate_member_fitness pop e := (all_members pop, S e);
     normalize_fitness_values pop e := (pop, S e);
     gen_offspring _ e := (Population_of [], S e);
     gen_mutants _ e := (Population_of [], S e);
     gen_next_gen pop size e :=
       (Population_of (take size (all_members pop)), S e);
     exit_func := exit_func |}.

(** Strategies under which every evaluation raises the fitness of every
    member by one, with an exit predicate that asks for a member of
    fitness 8 or more. *)
Definition improving_tools (initial : list MacroMolecule) : GATools nat :=
  {| pop_init _ size e :=
       (Population_of (if size is Some k then take k initial else initial),
        S e);
     optimize_population pop e := (all_members pop, S e);
     calculate_member_fitness pop e :=
       ((λ m, mkMacroMolecule (identity m) (file m) (Z.succ <$> fitness m))
          <$> all_members pop,
        S e);
     normalize_fitness_values pop e := (pop, S e);
     gen_offspring _ e := (Population_of [], S e);
     gen_mutants _ e := (Population_of [], S e);
     gen_next_gen pop size e :=
       (Population_of (take size (all_members pop)), S e);
     exit_func :=
       Some (λ pop e,
               (existsb
                  (λ m, if fitness m is Some v then (8 <=? v)%Z else false)
                  (all_members pop),
                S e)) |}.

Definition sample_world : World nat := mkWorld [] ["work"] 0 0.

(** One generation, two members wanted. *)
Definition one_generation : GAInput :=
  mkGAInput ["work"; "input.py"] "init_random" 2 1.

(** Three generations, two members wanted. *)
Definition three_generations : GAInput :=
  mkGAInput ["work"; "input.py"] "init_random" 2 3.

(** A restart from three dumped members, with a configured size of 7. *)
Definition restart : GAInput :=
  mkGAInput ["work"; "input.py"] "load" 7 2.



(** One behaviour a [remove_duplicates] could have, the scan done in
    place: every object below [pop] has its [members] list replaced by
    the list without the identities already seen, in flattening order.
    It stands for no source; it shows that the effect line 135 relies on
    can be had. *)
Fixpoint scan_in_place (st : Store) (seen : gset string)
    (r : PopRef) : Store * gset string :=
  match r with
  | mkRef l subs =>
      let d := dedupe seen (default [] (st !! l)) in
      (fix go (st : Store) (seen : gset string) (qs : list PopRef)
          : Store * gset string :=
         match qs with
         | [] => (st, seen)
         | q :: qs' =>
             let rq := scan_in_place st seen q in
             go rq.1 rq.2 qs'
         end) (<[l := d.1]> st) d.2 subs
  end.


Fixpoint scan_in_place_list (st : Store) (seen : gset string)
    (qs : list PopRef) : Store * gset string :=
  match qs with
  | [] => (st, seen)
  | q :: qs' =>
      let rq := scan_in_place st seen q in
      scan_in_place_list rq.1 rq.2 qs'
  end.

(** Simple readers and functional groups for concrete building blocks. *)
Record SimpleGroup : Type := mkSimpleGroup {
  sg_atom_ids : list Z;
  sg_placer_ids : list Z
}.

Definition simple_groups : FunctionalGroups SimpleGroup (list SimpleGroup) :=
  {| fg_get_placer_ids := sg_placer_ids;
     fg_with_atoms _ fg := fg;
     factory_get_functional_groups f _ := f |}.

(** Readers that find water in every file, and a [remake] that returns
    what it is given. *)
Definition water_positions : PositionMatrix :=
  [(0, 0, 0); (1, 0, 0); (0, 1, 0)]%Z.

Definition water : RdkitMol :=
  mkRdkitMol
    [mkRdkitAtom 0%Z 8%Z 0%Z; mkRdkitAtom 1%Z 1%Z 0%Z; mkRdkitAtom 2%Z 1%Z 0%Z]
    [mkRdkitBond 0 1 SINGLE; mkRdkitBond 0 2 SINGLE]
    (Ok (mkConformer water_positions)).

(** Water as [MolFromSmiles] leaves it: no conformer has been embedded. *)
Definition water_without_conformer : RdkitMol :=
  mkRdkitMol (GetAtoms water) (GetBonds water)
    (Raise (ValueError "Bad Conformer Id")).

Definition sample_io : RdkitIO :=
  {| read_with _ _ := Ok water; remake m := Ok m |}.

Definition hydroxyl : SimpleGroup := mkSimpleGroup [0; 1]%Z [0]%Z.

Definition other_hydroxyl : SimpleGroup :=
  mkSimpleGroup [0; 2]%Z [0; 2]%Z.

(** ** Further methods of [BuildingBlock] *)

(** What [get_core_atom_ids] asks of a functional group. *)
Class FunctionalGroupAtoms (FG : Type) : Type := {
  fg_get_atom_ids : FG → list Z;
  fg_get_core_atom_ids : FG → list Z
}.

(** The [fg_ids] argument of [get_functional_groups]: [None], one
    [int], or an iterable of [int]. *)
Inductive FgIds : Type :=
  | AllGroups
  | OneId (fg_id : Z)
  | ManyIds (fg_ids : list Z).

(** [t[i]] on a tuple: a negative index counts from the end, an index
    outside the tuple raises [IndexError]. *)
Definition tuple_get {A} (t : list A) (i : Z) : result A :=
  let n := Z.of_nat (length t) in
  let j := if (i <? 0)%Z then (i + n)%Z else i in
  if ((0 <=? j)%Z && (j <? n)%Z)%bool then
    match t !! Z.to_nat j with
    | Some a => Ok a
    | None => Raise (OtherError "IndexError")
    end
  else Raise (OtherError "IndexError").

(** What a generator hands out before it ends: the values it yields,
    and the exception that ends it, if any. *)
Definition Yielded (A : Type) : Type := list A * option exn.

(** [for i in ids: yield t[i]]. *)
Fixpoint yield_items {A} (t : list A) (ids : list Z) : Yielded A :=
  match ids with
  | [] => ([], None)
  | i :: ids' =>
      match tuple_get t i with
      | Ok a => let r := yield_items t ids' in (a :: r.1, r.2)
      | Raise e => ([], Some e)
      end
  end.

Section BuildingBlockMethods.
Context {FG Factory : Type} `{!FunctionalGroups FG Factory}
  `{!FunctionalGroupAtoms FG}.

(** [BuildingBlock.init_from_molecule]: the atoms and bonds of
    [molecule] go to [init]. *)
Definition init_from_molecule (molecule : Molecule)
    (functional_groups : FgArgument FG Factory)
    (placer_ids : option (list Z)) : BuildingBlock FG :=
  init (_atoms molecule) (_bonds molecule) (_position_matrix molecule)
    functional_groups placer_ids.

(** [BuildingBlock.clone]: the clone of the molecule, with the same
    functional groups and placer ids. *)
Definition clone (self : BuildingBlock FG) : BuildingBlock FG :=
  mkBuildingBlock (bb_molecule self) (_functional_groups self)
    (_placer_ids self).

(** [BuildingBlock.with_functional_groups]. *)
Definition with_functional_groups (self : BuildingBlock FG)
    (functional_groups : list FG) : BuildingBlock FG :=
  let clone := clone self in
  mkBuildingBlock (bb_molecule clone)
    (_with_functional_groups (bb_molecule clone) functional_groups)
    (_placer_ids clone).

(** [BuildingBlock.get_num_functional_groups]. *)
Definition get_num_functional_groups (self : BuildingBlock FG) : nat :=
  length (_functional_groups self).

(** [BuildingBlock.get_functional_groups]. *)
Definition get_functional_groups (self : BuildingBlock FG) (fg_ids : FgIds)
    : Yielded FG :=
  let fg_ids :=
    match fg_ids with
    | AllGroups => Z.of_nat <$> seq 0 (length (_functional_groups self))
    | OneId fg_id => [fg_id]
    | ManyIds fg_ids => fg_ids
    end in
  yield_items (_functional_groups self) fg_ids.

(** [BuildingBlock.get_core_atom_ids]. *)
Definition get_core_atom_ids (self : BuildingBlock FG) : list Z :=
  let functional_group_atom_ids : gset Z :=
    list_to_set (_functional_groups self ≫= fg_get_atom_ids) in
  filter (λ atom_id, atom_id ∉ functional_group_atom_ids)
    (get_id <$> _atoms (bb_molecule self))
  ++ (_functional_groups self ≫= fg_get_core_atom_ids).

End BuildingBlockMethods.

(** Bond indices of an [rdkit.Mol] that point at atoms of the molecule. *)
Definition bond_in_range (n : nat) (b : RdkitBond) : Prop :=
  GetBeginAtomIdx b < n ∧ GetEndAtomIdx b < n.

(** The order [_init_from_rdkit_mol] gives to the bond made from [b]. *)
Definition order_of (b : RdkitBond) : BondOrder :=
  match GetBondType b with
  | DATIVE => Order9
  | t => AsDouble t
  end.

(** ** Further views of a run *)

(** The populations [progress.update] is called on, in order. *)
Definition progress_updates (t : list Event) : list Population :=
  omap (λ ev, if ev is EvProgressUpdate pop then Some pop else None) t.

(** The populations written out by [pop.write], in order. *)
Definition written (t : list Event) : list Population :=
  omap (λ ev, if ev is EvWrite _ pop then Some pop else None) t.


(** The two directories of generation [x] below [root_dir]. *)
Definition dirs_of_generation (root_dir : path) (x : nat) : list path :=
  [root_dir ++ [pretty x]; (root_dir ++ [pretty x]) ++ ["selected"]].

(** ** More samples *)

Definition simple_group_atoms : FunctionalGroupAtoms SimpleGroup :=
  {| fg_get_atom_ids := sg_atom_ids; fg_get_core_atom_ids _ := [] |}.

Definition sample_block : BuildingBlock SimpleGroup :=
  mkBuildingBlock
    (mkMolecule [mkAtom 0 8 0; mkAtom 1 1 0; mkAtom 2 1 0] []
       water_positions)
    [hydroxyl; other_hydroxyl] [0%Z].

(** Strategies as [sample_tools], except that optimization loses the
    last member it is given. *)
Definition lossy_tools (initial : list MacroMolecule) : GATools nat :=
  {| pop_init _ size e :=
       (Population_of (if size is Some k then take k initial else initial),
        S e);
     optimize_population pop e :=
       (take (len pop - 1) (all_members pop), S e);
     calculate_member_fitness pop e := (all_members pop, S e);
     normalize_fitness_values pop e := (pop, S e);
     gen_offspring _ e := (Population_of [], S e);
     gen_mutants _ e := (Population_of [], S e);
     gen_next_gen pop size e :=
       (Population_of (take size (all_members pop)), S e);
     exit_func := None |}.

(** No generation at all. *)
Definition no_generation : GAInput :=
  mkGAInput ["work"; "input.py"] "init_random" 2 0.

(** Whether the character [c] occurs in [s] ([c in s]). *)
Fixpoint occurs (c : ascii) (s : string) : bool :=
  match s with
  | EmptyString => false
  | String a s' => Ascii.eqb a c || occurs c s'
  end.

(** The reader [_init_funcs] holds for each of its keys. *)
Definition reader_of (extension : string) : init_func :=
  if String.eqb extension ".pdb" then MolFromPDBFile false false false
  else MolFromMolFile false false.

(** ** The comparison of populations ([compare] in [__main__.py]) *)

(** A member as [compare] handles it: besides what [MacroMolecule]
    holds, the attributes [unscaled_fitness], [fitness_fail] and
    [progress_params]. *)
Record Individual : Type := mkIndividual {
  ind_molecule : MacroMolecule;
  unscaled_fitness : option (list Z);
  fitness_fail : bool;
  progress_params : option (list Z)
}.

(** A population of such members. *)
Inductive Compared : Type :=
  | mkCompared (cmp_members : list Individual)
               (cmp_populations : list Compared).

Definition cmp_members (pop : Compared) : list Individual :=
  match pop with mkCompared ms _ => ms end.

Definition cmp_populations (pop : Compared) : list Compared :=
  match pop with mkCompared _ ps => ps end.

(** Flattened iteration, as for [all_members]. *)
Fixpoint cmp_all_members (pop : Compared) : list Individual :=
  match pop with
  | mkCompared ms ps =>
      ms ++ (fix go (qs : list Compared) : list Individual :=
               match qs with
               | [] => []
               | q :: qs' => cmp_all_members q ++ go qs'
               end) ps
  end.

Fixpoint cmp_all_members_list (qs : list Compared) : list Individual :=
  match qs with
  | [] => []
  | q :: qs' => cmp_all_members q ++ cmp_all_members_list qs'
  end.

(** [f] applied to every member, as for [map_members]. *)
Fixpoint cmp_map_members (f : Individual → Individual) (pop : Compared)
    : Compared :=
  match pop with
  | mkCompared ms ps =>
      mkCompared (f <$> ms)
        ((fix go (qs : list Compared) : list Compared :=
            match qs with
            | [] => []
            | q :: qs' => cmp_map_members f q :: go qs'
            end) ps)
  end.

Fixpoint cmp_map_members_list (f : Individual → Individual)
    (qs : list Compared) : list Compared :=
  match qs with
  | [] => []
  | q :: qs' => cmp_map_members f q :: cmp_map_members_list f qs'
  end.

(** Modelled from the spec: [add_subpopulation] attaches [sp] as a
    child, after the children already there, without flattening. *)
Definition add_subpopulation (pop sp : Compared) : Compared :=
  mkCompared (cmp_members pop) (cmp_populations pop ++ [sp]).

(** What [compare] reads from the input file: the paths of the
    populations to compare and whether a normalization function is
    defined. *)
Record CompareInput : Type := mkCompareInput {
  cmp_input_file : path;
  comparison_pops : list path;
  normalization_func : bool
}.

(** The collaborators of [compare], with their hidden state. *)
Class CompareTools (E : Type) : Type := {
  cmp_load : path → E → Compared * E;
  cmp_calculate_member_fitness : Compared → E → list Individual * E;
  cmp_normalize_fitness_values : Compared → E → Compared * E
}.

(** The actions of [compare]: those it shares with [run], and its own. *)
Inductive CompareEvent : Type :=
  | CmpShared (ev : Event)
  | CmpReadInput (file : path)
  | CmpLoad (pop_path : path)
  | CmpWrite (dir : path) (sp : Compared)
  | CmpFitness (sp : Compared)
  | CmpNormalize (pop : Compared)
  | CmpPlotProgressParams (pop : Compared) (file : string)
  | CmpPlotSubpopulations (pop : Compared) (file : string)
  | CmpPrintMembers (pop : Compared).

(** The state of the loop over the populations: the actions so far, the
    hidden state, and the encapsulating population. *)
Record CompareState (E : Type) : Type := mkCompareState {
  cmp_log : list CompareEvent;
  cmp_env : E;
  cmp_pop : Compared
}.
Arguments mkCompareState {E} _ _ _.
Arguments cmp_log {E} _.
Arguments cmp_env {E} _.
Arguments cmp_pop {E} _.

(** The body of [for ind in sp]: the file moves to [sp_dir] under its
    old name and the results of earlier fitness calculations go. *)
Definition reset_individual (sp_dir : path) (ind : Individual) : Individual :=
  mkIndividual
    (mkMacroMolecule (identity (ind_molecule ind))
       (sp_dir ++ [basename (file (ind_molecule ind))]) None)
    None true None.

Section Compare.
Context {E : Type} `{!CompareTools E}.

(** The body of [for i, pop_path in enumerate(inp.comparison_pops)];
    [output_dir] is the current directory. *)
Definition compare_population (output_dir : path) (st : CompareState E)
    (i : nat) (pop_path : path) : CompareState E :=
  let sp_dir := output_dir ++ ["pop" +:+ pretty i] in
  let loaded := cmp_load pop_path (cmp_env st) in
  let sp := cmp_map_members (reset_individual sp_dir) loaded.1 in
  let fit := cmp_calculate_member_fitness sp loaded.2 in
  let sp' := mkCompared fit.1 [] in
  mkCompareState
    (cmp_log st ++ [CmpLoad pop_path; CmpWrite sp_dir sp; CmpFitness sp])
    fit.2
    (add_subpopulation (cmp_pop st) sp').

(** The loop, over the paths still to come, [i] being the index of the
    first of them. *)
Fixpoint compare_populations (output_dir : path) (st : CompareState E)
    (i : nat) (pop_paths : list path) : CompareState E :=
  match pop_paths with
  | [] => st
  | pop_path :: rest =>
      compare_populations output_dir
        (compare_population output_dir st i pop_path) (S i) rest
  end.

(** [compare], started in [launch_dir]: the final state and the
    directory the process ends in. *)
Definition compare (inp : CompareInput) (launch_dir : path) (e : E)
    : CompareState E * path :=
  let output_dir := launch_dir ++ ["output"] in
  let st0 :=
    mkCompareState
      [ CmpShared EvArchiveOutput;
        CmpShared (EvMkdir output_dir);
        CmpShared
          (EvCopyFile (cmp_input_file inp)
             (launch_dir ++ ["output"; basename (cmp_input_file inp)]));
        CmpReadInput (cmp_input_file inp);
        CmpShared (EvChdir output_dir) ]
      e (mkCompared [] []) in
  let st1 := compare_populations output_dir st0 0 (comparison_pops inp) in
  let st2 :=
    if normalization_func inp then
      let nor := cmp_normalize_fitness_values (cmp_pop st1) (cmp_env st1) in
      mkCompareState
        (cmp_log st1
           ++ [ CmpNormalize (cmp_pop st1);
                CmpPlotProgressParams nor.1 "param_comparison.png" ])
        nor.2 nor.1
    else st1 in
  (mkCompareState
     (cmp_log st2
        ++ [ CmpPlotSubpopulations (cmp_pop st2) "fitness_comparison.png";
             CmpPrintMembers (cmp_pop st2);
             CmpShared (EvChdir launch_dir);
             CmpShared EvArchiveOutput ])
     (cmp_env st2) (cmp_pop st2),
   launch_dir).

End Compare.

(** The actions [compare] shares with [run], in order. *)
Definition shared_events (t : list CompareEvent) : list Event :=
  omap (λ ev, if ev is CmpShared e then Some e else None) t.

(** The populations handed to the fitness calculation, in order. *)
Definition fitness_calls (t : list CompareEvent) : list Compared :=
  omap (λ ev, if ev is CmpFitness sp then Some sp else None) t.

(** The paths populations are loaded from, in order. *)
Definition loaded_paths (t : list CompareEvent) : list path :=
  omap (λ ev, if ev is CmpLoad pop_path then Some pop_path else None) t.

(** The directories the loaded populations are written to, in order. *)
Definition write_dirs (t : list CompareEvent) : list path :=
  omap (λ ev, if ev is CmpWrite dir _ then Some dir else None) t.

Definition is_plot_or_normalize (ev : CompareEvent) : bool :=
  match ev with
  | CmpNormalize _ | CmpPlotProgressParams _ _ | CmpPlotSubpopulations _ _ =>
      true
  | _ => false
  end.

(** The encapsulating population as the loop over the compared
    populations leaves it: the argument of the first call that reads
    it, [pop.normalize_fitness_values()] or [plot.subpopulations]. *)
Definition encapsulating (t : list CompareEvent) : option Compared :=
  head (omap (λ ev, match ev with
                    | CmpNormalize pop => Some pop
                    | CmpPlotSubpopulations pop _ => Some pop
                    | _ => None
                    end) t).

(** A member as a dump of an earlier run holds it, with the values of
    that run. *)
Definition dumped (m : MacroMolecule) : Individual :=
  mkIndividual m (Some [1%Z; 2%Z]) false (Some [4%Z]).

(** Collaborators for [compare]: every path loads the same nested
    population, the fitness of a member is the length of its identity,
    and normalization doubles every fitness.  The hidden state counts
    the calls. *)
Definition scored (ind : Individual) : Individual :=
  let m := ind_molecule ind in
  let v := Z.of_nat (String.length (identity m)) in
  mkIndividual (mkMacroMolecule (identity m) (file m) (Some v))
    (Some [v]) false (Some [v]).

Definition doubled (ind : Individual) : Individual :=
  let m := ind_molecule ind in
  mkIndividual
    (mkMacroMolecule (identity m) (file m) (Z.mul 2 <$> fitness m))
    (unscaled_fitness ind) (fitness_fail ind) (progress_params ind).

#[global] Instance sample_compare_tools : CompareTools nat := {
  cmp_load _ n :=
    (mkCompared [dumped ethane] [mkCompared [dumped propane] []], S n);
  cmp_calculate_member_fitness sp n :=
    (scored <$> cmp_all_members sp, S n);
  cmp_normalize_fitness_values pop n := (cmp_map_members doubled pop, S n)
}.

Definition sample_comparison : CompareInput :=
  mkCompareInput ["home"; "compare.py"]
    [["home"; "first.dmp"]; ["home"; "second.dmp"]] true.

(** ** Proof steps that recur *)

(** Case analysis on the exit answer of a generation. *)
Ltac case_exit H :=
  match goal with
  | |- context [if g_exit ?g then _ else _] => destruct (g_exit g) eqn:H
  | _ : context [if g_exit ?g then _ else _] |- _ => destruct (g_exit g) eqn:H
  end.

(** Two directories that differ below a common prefix. *)
Ltac path_neq :=
  let H := fresh in
  intros H; rewrite <- ?app_assoc in H;
  first
    [ apply app_inv_head in H; discriminate H
    | apply (f_equal length) in H; rewrite ?length_app in H; cbn in H; lia ].

(** * Properties *)

(** ** [os.path.splitext] on examples *)

Example splitext_mol :
  OsPath.splitext "data/block.mol" = ("data/block", ".mol").
Proof. reflexivity. Qed.

Example splitext_hidden : OsPath.splitext "data/.mol" = ("data/.mol", "").
Proof. reflexivity. Qed.

Example splitext_dir_dot : OsPath.splitext "v1.2/block" = ("v1.2/block", "").
Proof. reflexivity. Qed.

Example splitext_last_dot : OsPath.splitext "a.tar.pdb" = ("a.tar", ".pdb").
Proof. reflexivity. Qed.

Example splitext_upper : OsPath.splitext "block.MOL" = ("block", ".MOL").
Proof. reflexivity. Qed.

(** ** Building blocks *)

Lemma flatten_one_level {A} (xss : list (list A)) :
  flatten ((λ xs, Iterable (Item <$> xs)) <$> xss) = concat xss.
Proof.
  unfold flatten. cbn [flatten_one].
  induction xss as [|xs xss IH]; [reflexivity|].
  cbn [fmap list_fmap concat]. rewrite IH. f_equal.
  clear IH. cbn [flatten_one].
  induction xs as [|x xs IHxs]; [reflexivity|].
  cbn. by rewrite IHxs.
Qed.

Lemma _init_funcs_None (extension : string) :
  _init_funcs !! extension = None ↔ extension ∉ [".mol"; ".sdf"; ".pdb"].
Proof.
  rewrite !not_elem_of_cons. split.
  - intros H. split_and!; try (intros ->; by vm_compute in H).
    apply not_elem_of_nil.
  - intros (Hmol & Hsdf & Hpdb & _). unfold _init_funcs.
    rewrite !lookup_insert_ne by done. apply lookup_empty.
Qed.

Lemma _init_funcs_mol_sdf (extension : string) :
  extension ∈ [".mol"; ".sdf"] →
  _init_funcs !! extension = Some (MolFromMolFile false false).
Proof.
  rewrite !elem_of_cons, elem_of_nil. by intros [->|[->|[]]].
Qed.

Section BuildingBlockFacts.
Context {FG Factory : Type} `{!FunctionalGroups FG Factory} `{!RdkitIO}.

Lemma _normalize_placer_ids_rule (self : Molecule)
    (placer_ids : option (list Z)) (functional_groups : list FG) :
  _normalize_placer_ids self placer_ids functional_groups =
    match placer_ids with
    | Some ids => ids
    | None =>
        if bool_decide (functional_groups = [])
        then get_id <$> _atoms self
        else concat (fg_get_placer_ids <$> functional_groups)
    end.
Proof.
  unfold _normalize_placer_ids.
  destruct placer_ids as [ids|]; [reflexivity|].
  destruct functional_groups as [|fg fgs]; [reflexivity|].
  rewrite bool_decide_eq_false_2 by done.
  rewrite <- flatten_one_level, <- list_fmap_compose. reflexivity.
Qed.

(** C9.  The placer ids of a building block follow a three-case rule,
    whichever initializer builds it ([init], or [init_from_rdkit_mol] when
    it succeeds): a supplied [placer_ids] tuple is kept as it is;
    otherwise, when the building block has at least one functional group,
    they are the placer ids of its functional groups, concatenated in
    order; otherwise they are the ids of all atoms of the molecule. *)
Theorem placer_ids_resolved_by_three_cases :
  (∀ (self : Molecule) (ids : list Z) (fgs : list FG),
     _normalize_placer_ids self (Some ids) fgs = ids) ∧
  (∀ (self : Molecule) (fg : FG) (fgs : list FG),
     _normalize_placer_ids self None (fg :: fgs) =
       concat (fg_get_placer_ids <$> fg :: fgs)) ∧
  (∀ self : Molecule,
     _normalize_placer_ids self None [] = get_id <$> _atoms self) ∧
  (∀ atoms bonds position_matrix (arg : FgArgument FG Factory) placer_ids,
     let bb := init atoms bonds position_matrix arg placer_ids in
     _atoms (bb_molecule bb) = atoms ∧
     get_placer_ids bb =
       match placer_ids with
       | Some ids => ids
       | None =>
           if bool_decide (_functional_groups bb = [])
           then get_id <$> atoms
           else concat (fg_get_placer_ids <$> _functional_groups bb)
       end) ∧
  (∀ molecule (arg : FgArgument FG Factory) placer_ids bb,
     init_from_rdkit_mol molecule arg placer_ids = Ok bb →
     get_placer_ids bb =
       match placer_ids with
       | Some ids => ids
       | None =>
           if bool_decide (_functional_groups bb = [])
           then get_id <$> _atoms (bb_molecule bb)
           else concat (fg_get_placer_ids <$> _functional_groups bb)
       end).
Proof.
  split_and!.
  - reflexivity.
  - intros self fg fgs. by rewrite _normalize_placer_ids_rule.
  - reflexivity.
  - intros atoms bonds position_matrix arg placer_ids bb.
    split; [reflexivity|].
    unfold get_placer_ids, bb, init. cbn [_placer_ids _functional_groups].
    apply _normalize_placer_ids_rule.
  - intros molecule arg placer_ids bb. unfold init_from_rdkit_mol.
    destruct (bonds_of _ _) as [bonds|e]; cbn [result_bind]; [|done].
    destruct (GetConformer molecule) as [conformer|e]; cbn [result_bind];
      [|done].
    intros [= <-]. unfold get_placer_ids.
    cbn [_placer_ids _functional_groups bb_molecule].
    apply _normalize_placer_ids_rule.
Qed.

(** C10.  The extension check of [init_from_file] raises if and only if
    the extension [os.path.splitext] finds in the path is none of
    [.mol], [.sdf], [.pdb], and then [init_from_file] raises the
    [ValueError] naming the extension.  For [.mol] and [.sdf] the check
    passes and the path goes to [MolFromMolFile], for [.pdb] to
    [MolFromPDBFile], each with its fixed keyword arguments; what
    [init_from_file] returns or raises is then decided by the reader,
    [remake] and [init_from_rdkit_mol]. *)
Theorem init_from_file_raises_iff_unsupported_extension
    (path : string) (arg : FgArgument FG Factory)
    (placer_ids : option (list Z)) :
  let extension := (OsPath.splitext path).2 in
  let continue_with (f : init_func) :=
    result_bind (read_with f path) (λ loaded,
    result_bind (remake loaded) (λ molecule,
    init_from_rdkit_mol molecule arg placer_ids)) in
  (raises (init_func_for path) ↔ extension ∉ [".mol"; ".sdf"; ".pdb"]) ∧
  (extension ∉ [".mol"; ".sdf"; ".pdb"] →
     init_from_file path arg placer_ids =
       Raise (ValueError
         ("Unable to initialize from " +:+ quote +:+ extension +:+ quote
            +:+ " files."))) ∧
  (extension ∈ [".mol"; ".sdf"] →
     init_func_for path = Ok (MolFromMolFile false false) ∧
     init_from_file path arg placer_ids =
       continue_with (MolFromMolFile false false)) ∧
  (extension = ".pdb" →
     init_func_for path = Ok (MolFromPDBFile false false false) ∧
     init_from_file path arg placer_ids =
       continue_with (MolFromPDBFile false false false)).
Proof.
  intros extension continue_with. subst continue_with.
  unfold init_from_file, init_func_for, raises. fold extension.
  destruct (OsPath.splitext path) as [root ext] eqn:Hsplit.
  cbn [snd] in extension. subst extension.
  split_and!.
  - rewrite <- _init_funcs_None.
    destruct (_init_funcs !! ext) as [f|]; split; intros Hr; try done.
    + by destruct Hr.
    + by eexists.
  - intros Hno. apply (proj2 (_init_funcs_None ext)) in Hno.
    by rewrite Hno.
  - intros Hin. apply _init_funcs_mol_sdf in Hin. by rewrite Hin.
  - intros ->. done.
Qed.

End BuildingBlockFacts.

(** Building blocks read from files, on samples. *)

Example placer_ids_of_the_groups :
  get_placer_ids <$>
    @init_from_file _ _ simple_groups sample_io "water.mol"
      (Several [AGroup hydroxyl; AFactory [other_hydroxyl]]) None
  = Ok [0; 0; 2]%Z.
Proof. reflexivity. Qed.

Example placer_ids_of_all_atoms :
  get_placer_ids <$>
    @init_from_file _ _ simple_groups sample_io "water.pdb" (Several []) None
  = Ok [0; 1; 2]%Z.
Proof. reflexivity. Qed.

Example placer_ids_as_given :
  get_placer_ids <$>
    @init_from_file _ _ simple_groups sample_io "water.sdf"
      (NonIterable (AGroup hydroxyl)) (Some [1]%Z)
  = Ok [1]%Z.
Proof. reflexivity. Qed.

Example upper_case_extension_is_refused :
  @init_from_file _ _ simple_groups sample_io "water.MOL" (Several []) None
  = Raise (ValueError
             ("Unable to initialize from " +:+ quote +:+ ".MOL" +:+ quote
                +:+ " files.")).
Proof. reflexivity. Qed.

Example name_of_dots_only_has_no_extension :
  @init_from_file _ _ simple_groups sample_io "data/.mol" (Several []) None
  = Raise (ValueError
             ("Unable to initialize from " +:+ quote +:+ quote +:+ " files.")).
Proof. reflexivity. Qed.

(** ** The driver: [run] and the generations it executes *)

Section DriverFacts.
Context {E : Type} `{!GATools E}.

Lemma generation_wrong_size root_dir ga_input x pop (w : World E) :
  len pop ≠ ga_input_pop_size w →
  generation root_dir ga_input x pop w =
    (Raise (PopulationSizeError "Population has the wrong size."), w).
Proof.
  intros Hne. unfold generation, bind, get_pop_size. cbn.
  apply Nat.eqb_neq in Hne. rewrite Hne. reflexivity.
Qed.

Lemma generation_right_size root_dir ga_input x pop (w : World E) :
  len pop = ga_input_pop_size w →
  generation root_dir ga_input x pop w =
    let size := ga_input_pop_size w in
    let g := generation_of x pop size (env w) in
    (Ok (g_survivors g, g_exit g),
     mkWorld (log w ++ generation_events root_dir ga_input size g)
       ((root_dir ++ [pretty x]) ++ ["selected"]) size (g_env g)).
Proof.
  intros Heq. unfold generation, bind, get_pop_size. cbn.
  apply Nat.eqb_eq in Heq. rewrite Heq. cbn.
  unfold generation_events. cbn. rewrite <- !app_assoc. reflexivity.
Qed.

Lemma ga_loop_outcome root_dir ga_input xs pop (w : World E) :
  let size := ga_input_pop_size w in
  let r := ga_loop root_dir ga_input xs pop w in
  r.1 = loop_outcome xs pop size (env w) ∧
  log r.2 =
    log w ++ (generations_of xs pop size (env w)
                ≫= generation_events root_dir ga_input size) ∧
  ga_input_pop_size r.2 = size.
Proof.
  revert pop w. induction xs as [|x xs IH]; intros pop w; cbn zeta.
  - cbn. by rewrite app_nil_r.
  - cbn [ga_loop generations_of loop_outcome]. unfold bind at 1 2 3.
    destruct (decide (len pop = ga_input_pop_size w)) as [Heq|Hne].
    + rewrite (generation_right_size _ _ _ _ _ Heq). cbn zeta.
      cbn [fst snd]. apply Nat.eqb_eq in Heq. rewrite Heq.
      set (g := generation_of x pop (ga_input_pop_size w) (env w)).
      destruct (g_exit g) eqn:Hexit.
      * unfold ret. cbn [fst snd log ga_input_pop_size].
        by rewrite bind_singleton.
      * match goal with
        | |- context [ga_loop _ _ _ _ ?w'] => specialize (IH (g_survivors g) w')
        end.
        cbn zeta in IH. cbn [ga_input_pop_size env log] in IH.
        destruct IH as (IH1 & IH2 & IH3).
        split_and!; [done| |done].
        rewrite IH2, bind_cons. by rewrite <- app_assoc.
    + rewrite (generation_wrong_size _ _ _ _ _ Hne). cbn [fst snd].
      apply Nat.eqb_neq in Hne. rewrite Hne. cbn. by rewrite app_nil_r.
Qed.

Lemma run_split ga_input (w : World E) :
  run ga_input w =
    bind (prologue ga_input)
      (λ t,
         bind
           (ga_loop t.1.2 ga_input (seq 1 (num_generations ga_input)) t.2)
           (finish t.1.1))
      w.
Proof.
  unfold run, prologue, initial_population.
  destruct (String.eqb (init_func_name ga_input) "load");
    cbn -[ga_loop seq]; reflexivity.
Qed.

Lemma prologue_start ga_input (w : World E) :
  prologue ga_input w =
    let s := start_of ga_input (cwd w) (env w) in
    let root_dir := cwd w ++ ["output"] in
    (Ok (cwd w, root_dir, s_pop s),
     mkWorld (log w ++ s_events s) (root_dir ++ ["initial"])
       (s_pop_size s) (s_env s)).
Proof.
  unfold prologue, start_of, initial_population.
  destruct (String.eqb (init_func_name ga_input) "load");
    cbn; rewrite <- !app_assoc; reflexivity.
Qed.

Lemma finish_events launch_dir pop (w : World E) :
  finish launch_dir pop w =
    (Ok pop,
     mkWorld (log w ++ final_events launch_dir) launch_dir
       (ga_input_pop_size w) (env w)).
Proof.
  unfold finish, final_events. cbn. rewrite <- !app_assoc. reflexivity.
Qed.

(** The shape of every run: what it returns, what it does, and the
    value [ga_input.pop_size] ends with. *)
Lemma run_structure ga_input (w : World E) :
  let s := start_of ga_input (cwd w) (env w) in
  let root_dir := cwd w ++ ["output"] in
  let xs := seq 1 (num_generations ga_input) in
  let gens := generations_of xs (s_pop s) (s_pop_size s) (s_env s) in
  let out := loop_outcome xs (s_pop s) (s_pop_size s) (s_env s) in
  (run ga_input w).1 = out ∧
  log (run ga_input w).2 =
    log w ++ s_events s
      ++ (gens ≫= generation_events root_dir ga_input (s_pop_size s))
      ++ (if out is Ok _ then final_events (cwd w) else []) ∧
  ga_input_pop_size (run ga_input w).2 = s_pop_size s.
Proof.
  intros s root_dir xs gens out.
  rewrite run_split. unfold bind. rewrite prologue_start.
  cbn zeta. cbn [fst snd]. fold s root_dir xs.
  match goal with
  | |- context [ga_loop root_dir ga_input xs (s_pop s) ?w1] =>
      pose proof (ga_loop_outcome root_dir ga_input xs (s_pop s) w1)
        as (H1 & H2 & H3)
  end.
  cbn [ga_input_pop_size env log] in H1, H2, H3.
  fold gens in H2. fold out in H1.
  cbn zeta. rewrite H1. destruct out as [pop|e].
  - rewrite finish_events. cbn [fst snd log ga_input_pop_size].
    rewrite H2, H3. by rewrite <- !app_assoc.
  - cbn [fst snd]. rewrite H2, H3. by rewrite app_nil_r, <- !app_assoc.
Qed.

Lemma generations_of_parents_size xs pop size (e : E) :
  Forall (λ g, len (g_parents g) = size) (generations_of xs pop size e).
Proof.
  revert pop e. induction xs as [|x xs IH]; intros pop e; cbn; [constructor|].
  destruct (Nat.eqb_spec (len pop) size) as [Heq|Hne]; [|constructor].
  constructor; [done|].
  case_exit Hexit; [constructor|apply IH].
Qed.

Lemma generations_of_head xs pop size (e : E) g gens :
  generations_of xs pop size e = g :: gens →
  ∃ x xs', xs = x :: xs' ∧ len pop = size ∧
    g = generation_of x pop size e ∧
    gens = (if g_exit g then []
            else generations_of xs' (g_survivors g) size (g_env g)).
Proof.
  destruct xs as [|x xs']; cbn; [done|].
  destruct (Nat.eqb_spec (len pop) size) as [Heq|Hne]; [|done].
  intros [= <- <-]. by exists x, xs'.
Qed.

(** Every executed generation is the loop body run on its parents. *)
Lemma generations_of_form xs pop size (e : E) g :
  g ∈ generations_of xs pop size e →
  ∃ e0, g = generation_of (g_index g) (g_parents g) size e0.
Proof.
  revert pop e. induction xs as [|x xs IH]; intros pop e; cbn.
  - by intros ?%elem_of_nil.
  - destruct (Nat.eqb_spec (len pop) size) as [Heq|Hne];
      [|by intros ?%elem_of_nil].
    intros [->|Hin]%elem_of_cons; [by exists e|].
    case_exit Hexit; [by apply elem_of_nil in Hin|by eapply IH].
Qed.


Lemma generations_of_chain xs pop size (e : E) i g g' :
  generations_of xs pop size e !! i = Some g →
  generations_of xs pop size e !! S i = Some g' →
  g_exit g = false ∧ g_parents g' = g_survivors g.
Proof.
  revert xs pop e. induction i as [|i IH]; intros xs pop e Hg Hg'.
  - destruct (generations_of xs pop size e) as [|g0 gens] eqn:Hgens; [done|].
    apply generations_of_head in Hgens as (x & xs' & -> & Hlen & -> & ->).
    cbn in Hg, Hg'. injection Hg as <-.
    case_exit Hexit; [done|]. split; [done|].
    destruct (generations_of xs' _ size _) as [|g1 gens1] eqn:Hgens1; [done|].
    apply generations_of_head in Hgens1 as (x1 & xs1 & -> & _ & -> & _).
    cbn in Hg'. by injection Hg' as <-.
  - destruct (generations_of xs pop size e) as [|g0 gens] eqn:Hgens; [done|].
    apply generations_of_head in Hgens as (x & xs' & -> & Hlen & -> & ->).
    cbn in Hg, Hg'. case_exit Hexit; [done|]. by eapply IH.
Qed.

Lemma generations_of_index a n pop size (e : E) i g :
  generations_of (seq a n) pop size e !! i = Some g → g_index g = a + i.
Proof.
  revert a pop e i. induction n as [|n IH]; intros a pop e i; cbn; [done|].
  destruct (Nat.eqb_spec (len pop) size) as [Heq|Hne]; [|done].
  destruct i as [|i]; cbn.
  - intros [= <-]. unfold generation_of. cbn [g_index]. lia.
  - case_exit Hexit; [done|]. intros Hg%IH. lia.
Qed.

Lemma generations_of_length xs pop size (e : E) :
  length (generations_of xs pop size e) ≤ length xs.
Proof.
  revert pop e. induction xs as [|x xs IH]; intros pop e; cbn; [lia|].
  destruct (len pop =? size)%nat; cbn; [|lia].
  case_exit Hexit; cbn; [lia|]. specialize (IH (g_survivors
    (generation_of x pop size e)) (g_env (generation_of x pop size e))). lia.
Qed.

(** How the loop ends: either with the population left by the executed
    generations, after the last index or after an exit; or with the size
    error, raised for the population that was to enter the next
    generation. *)
Lemma loop_outcome_cases xs pop size (e : E) :
  let gens := generations_of xs pop size e in
  (loop_outcome xs pop size e = Ok (pop_after pop gens) ∧
     (length gens = length xs ∨ ∃ g, last gens = Some g ∧ g_exit g = true)) ∨
  (loop_outcome xs pop size e =
     Raise (PopulationSizeError "Population has the wrong size.") ∧
   length gens < length xs ∧
   len (pop_after pop gens) ≠ size ∧
   ∀ g, g ∈ gens → g_exit g = false).
Proof.
  revert pop e. induction xs as [|x xs IH]; intros pop e; cbn zeta.
  - left. cbn. by split; [|left].
  - cbn [generations_of loop_outcome].
    destruct (Nat.eqb_spec (len pop) size) as [Heq|Hne].
    + set (g := generation_of x pop size e).
      destruct (g_exit g) eqn:Hexit.
      * left. split; [done|]. right. by exists g.
      * specialize (IH (g_survivors g) (g_env g)). cbn zeta in IH.
        set (gens := generations_of xs (g_survivors g) size (g_env g)) in *.
        assert (pop_after pop (g :: gens) = pop_after (g_survivors g) gens)
          as Hafter.
        { unfold pop_after. rewrite last_cons. by destruct (last gens). }
        rewrite Hafter.
        destruct IH as [[Hok Hend]|(Herr & Hlt & Hlen & Hno)].
        -- left. split; [done|]. destruct Hend as [Hall|(g1 & Hlast & Hex)].
           ++ left. cbn. lia.
           ++ right. exists g1. split; [|done].
              by rewrite last_cons, Hlast.
        -- right. split_and!; [done|cbn; lia|done|].
           intros g1 [->|Hin]%elem_of_cons; [done|by apply Hno].
    + right. split_and!; [done|cbn; lia|done|].
      by intros g ?%elem_of_nil.
Qed.

Lemma stages_generation_events root_dir ga_input size (g : Generation E) :
  stages (generation_events root_dir ga_input size g) = generation_stages.
Proof.
  reflexivity.
Qed.

Lemma stages_bind_generations root_dir ga_input size
    (gens : list (Generation E)) :
  stages (gens ≫= generation_events root_dir ga_input size) =
    concat (replicate (length gens) generation_stages).
Proof.
  induction gens as [|g gens IH]; [reflexivity|].
  rewrite bind_cons. unfold stages in *. rewrite omap_app, IH.
  cbn [length replicate concat]. by f_equal.
Qed.

Lemma filter_bind_nil {A B} (P : B → Prop) `{!∀ x, Decision (P x)}
    (f : A → list B) (l : list A) :
  (∀ a, filter P (f a) = []) → filter P (l ≫= f) = [].
Proof.
  intros Hf. induction l as [|a l IH]; [reflexivity|].
  by rewrite bind_cons, filter_app, Hf, IH.
Qed.

Lemma s_events_head ga_input launch_dir (e : E) :
  ∃ rest,
    s_events (start_of ga_input launch_dir e) =
      EvKillMacromodel :: EvArchiveOutput :: rest.
Proof. unfold start_of. cbn [s_events app]. by eexists. Qed.

Lemma filter_is_move_s_events ga_input launch_dir (e : E) :
  filter is_move (s_events (start_of ga_input launch_dir e)) =
    [EvArchiveOutput].
Proof.
  unfold start_of. cbn [s_events].
  by destruct (String.eqb (init_func_name ga_input) "load").
Qed.

Lemma filter_is_move_generation_events root_dir ga_input size
    (g : Generation E) :
  filter is_move (generation_events root_dir ga_input size g) = [].
Proof. reflexivity. Qed.

(** C7.  [kill_macromodel] is the first action of every run, and
    [archive_output] the second.  A run that reaches its end finishes
    with [kill_macromodel], the plot, the dump of the progress record,
    and only then [tar_output] and [archive_output]; no strategy is
    called between that cleanup and the moves.  These are all the
    directory moves of a run, so every move is preceded by a cleanup of
    the same run. *)
Theorem cleanup_precedes_every_directory_move ga_input (w : World E) :
  let s := start_of ga_input (cwd w) (env w) in
  let root_dir := cwd w ++ ["output"] in
  let gens :=
    generations_of (seq 1 (num_generations ga_input)) (s_pop s)
      (s_pop_size s) (s_env s) in
  let r := run ga_input w in
  ∃ acts,
    log r.2 = log w ++ acts ∧
    (∃ rest, acts = EvKillMacromodel :: EvArchiveOutput :: rest) ∧
    (∀ t1 ev t2,
       acts = t1 ++ ev :: t2 → is_move ev → EvKillMacromodel ∈ t1) ∧
    filter is_move acts =
      EvArchiveOutput ::
        (if r.1 is Ok _ then [EvTarOutput; EvArchiveOutput] else []) ∧
    (∀ pop,
       r.1 = Ok pop →
       acts =
         (s_events s
            ++ (gens ≫= generation_events root_dir ga_input (s_pop_size s)))
         ++ [ EvKillMacromodel;
              EvPrintInfo "Plotting EPP.";
              EvPlotEpp;
              EvChdir root_dir;
              EvDumpProgress (root_dir ++ ["progress.dmp"]);
              EvChdir (cwd w);
              EvTarOutput;
              EvArchiveOutput ]).
Proof.
  intros s root_dir gens r.
  destruct (run_structure ga_input w) as (Hres & Hlog & _).
  fold s root_dir gens r in Hres, Hlog.
  eexists. split; [exact Hlog|].
  destruct (s_events_head ga_input (cwd w) (env w)) as [rest Hhead].
  fold s in Hhead.
  assert (∃ rest',
    s_events s
      ++ (gens ≫= generation_events root_dir ga_input (s_pop_size s))
      ++ (if loop_outcome (seq 1 (num_generations ga_input)) (s_pop s)
               (s_pop_size s) (s_env s) is Ok _
          then final_events (cwd w) else [])
    = EvKillMacromodel :: EvArchiveOutput :: rest') as [rest' Hacts].
  { rewrite Hhead. by eexists. }
  split_and!.
  - by exists rest'.
  - intros t1 ev t2 Hsplit Hmove. rewrite Hacts in Hsplit.
    destruct t1 as [|ev1 t1]; cbn in Hsplit.
    + injection Hsplit as <- _. done.
    + injection Hsplit as <- _. apply elem_of_cons. by left.
  - pose proof (filter_is_move_s_events ga_input (cwd w) (env w)) as Hms.
    fold s in Hms. rewrite !filter_app, Hms.
    rewrite (filter_bind_nil _ _ _
               (filter_is_move_generation_events root_dir ga_input _)).
    rewrite Hres. by destruct (loop_outcome _ _ _ _).
  - intros pop Hok. rewrite <- Hres, Hok. by rewrite app_assoc.
Qed.

(** C6.  The stage-relevant actions of a run are those of the initial
    pass followed, for every executed generation, by variation, merge
    and removal of duplicates, optimization, fitness evaluation,
    normalization, survivor selection, checkpoint and exit check, in
    this order and without overlap.  In a generation, optimization
    receives the population merged from parents, offspring and mutants
    with duplicates removed; evaluation receives the population built
    from all that optimization returned; normalization receives the
    population built from all that evaluation returned, so it starts
    only when every evaluation is over; and selection receives the
    normalized population. *)
Theorem stages_of_a_generation_in_order ga_input (w : World E) :
  let s := start_of ga_input (cwd w) (env w) in
  let root_dir := cwd w ++ ["output"] in
  let size := s_pop_size s in
  let gens :=
    generations_of (seq 1 (num_generations ga_input)) (s_pop s) size
      (s_env s) in
  let r := run ga_input w in
  let tail := if r.1 is Ok _ then final_events (cwd w) else [] in
  log r.2 =
    log w ++ s_events s
      ++ (gens ≫= generation_events root_dir ga_input size) ++ tail ∧
  stages (s_events s
            ++ (gens ≫= generation_events root_dir ga_input size) ++ tail) =
    stages (s_events s)
      ++ concat (replicate (length gens)
           [ VARY; VARY; MERGE_DEDUP; MERGE_DEDUP; OPTIMIZE; EVALUATE;
             NORMALIZE; SELECT; CHECKPOINT; CHECKPOINT; CHECKPOINT;
             EXIT_CHECK ]) ∧
  Forall
    (λ g,
       filter has_stage (generation_events root_dir ga_input size g) =
         [ EvGenOffspring (g_parents g);
           EvGenMutants (g_parents g);
           EvAdd (g_parents g) (g_offspring g) (g_mutants g);
           EvRemoveDuplicates
             (add (g_parents g) (add (g_offspring g) (g_mutants g)));
           EvOptimize (g_merged g);
           EvFitness (g_optimized g);
           EvNormalize (g_evaluated g);
           EvSelect (g_normalized g) size;
           EvWrite ((root_dir ++ [pretty (g_index g)]) ++ ["selected"])
             (g_survivors g);
           EvDump ((root_dir ++ [pretty (g_index g)]) ++ ["selected"])
             "pop_dump" (g_survivors g);
           EvProgressUpdate (g_survivors g);
           EvExit (g_survivors g) (g_exit g) ] ∧
       g_merged g =
         remove_duplicates
           (add (g_parents g) (add (g_offspring g) (g_mutants g))) ∧
       ∃ e1 e2 e3 e4,
         g_optimized g =
           Population_of (optimize_population (g_merged g) e1).1 ∧
         e2 = (optimize_population (g_merged g) e1).2 ∧
         g_evaluated g =
           Population_of (calculate_member_fitness (g_optimized g) e2).1 ∧
         e3 = (calculate_member_fitness (g_optimized g) e2).2 ∧
         g_normalized g = (normalize_fitness_values (g_evaluated g) e3).1 ∧
         e4 = (normalize_fitness_values (g_evaluated g) e3).2 ∧
         g_survivors g = (gen_next_gen (g_normalized g) size e4).1)
    gens.
Proof.
  intros s root_dir size gens r tail.
  destruct (run_structure ga_input w) as (Hres & Hlog & _).
  fold s root_dir size gens r in Hres, Hlog.
  split_and!.
  - subst tail. by rewrite Hres.
  - unfold stages at 1. rewrite !omap_app.
    fold (stages (gens ≫= generation_events root_dir ga_input size)).
    rewrite stages_bind_generations. fold (stages (s_events s)).
    assert (omap stage_of tail = []) as ->.
    { subst tail. by destruct (r.1). }
    by rewrite app_nil_r.
  - apply Forall_forall. intros g Hg.
    apply generations_of_form in Hg as [e0 Hg].
    split_and!.
    + reflexivity.
    + rewrite Hg. reflexivity.
    + rewrite Hg. unfold generation_of. cbn.
      eexists _, _, _, _. split_and!; reflexivity.
Qed.

Lemma generations_of_full_indices n pop size (e : E) :
  length (generations_of (seq 1 n) pop size e) = n →
  g_index <$> generations_of (seq 1 n) pop size e = seq 1 n.
Proof.
  intros Hlen. apply list_eq. intros i.
  rewrite list_lookup_fmap.
  destruct (generations_of (seq 1 n) pop size e !! i) as [g|] eqn:Hg.
  - cbn. rewrite (generations_of_index _ _ _ _ _ _ _ Hg).
    apply lookup_lt_Some in Hg. rewrite Hlen in Hg.
    symmetry. by apply lookup_seq_lt.
  - cbn. apply lookup_ge_None in Hg. rewrite Hlen in Hg.
    symmetry. apply lookup_ge_None. by rewrite length_seq.
Qed.

Lemma exit_answer_of_generation xs pop size (e : E) g :
  g ∈ generations_of xs pop size e →
  ∃ e0, g_exit g = (exit (g_survivors g) e0).1.
Proof.
  intros [e0 Hg]%generations_of_form. rewrite Hg.
  unfold generation_of. cbn [g_exit g_survivors]. by eexists.
Qed.

(** An executed generation that asked to exit is the last one, and the
    loop ends with its survivors. *)
Lemma exit_ends_the_loop xs pop size (e : E) i g :
  generations_of xs pop size e !! i = Some g →
  g_exit g = true →
  length (generations_of xs pop size e) = S i ∧
  loop_outcome xs pop size e = Ok (g_survivors g).
Proof.
  intros Hg Hexit.
  assert (length (generations_of xs pop size e) = S i) as Hlen.
  { pose proof (lookup_lt_Some _ _ _ Hg) as Hlt.
    destruct (generations_of xs pop size e !! S i) as [g'|] eqn:Hg'.
    - destruct (generations_of_chain _ _ _ _ _ _ _ Hg Hg') as [Hno _].
      congruence.
    - apply lookup_ge_None in Hg'. lia. }
  split; [done|].
  assert (last (generations_of xs pop size e) = Some g) as Hlast.
  { rewrite last_lookup, Hlen. exact Hg. }
  destruct (loop_outcome_cases xs pop size e)
    as [[Hok _]|(_ & _ & _ & Hno)].
  - rewrite Hok. unfold pop_after. by rewrite Hlast.
  - assert (g_exit g = false); [|congruence].
    apply Hno. by eapply list_elem_of_lookup_2.
Qed.

Lemma no_exit_func_never_exits xs pop size (e : E) g :
  exit_func = None →
  g ∈ generations_of xs pop size e → g_exit g = false.
Proof.
  intros Hnone [e0 ->]%exit_answer_of_generation.
  unfold exit. by rewrite Hnone.
Qed.

(** C4.  In every executed generation [pop.exit()] is evaluated exactly
    once, as the last action of the generation, after the survivors have
    been written, dumped and recorded, and on those survivors; it is
    evaluated nowhere else.  A generation whose exit check answers true
    is the last one executed, and the run ends with its survivors.
    Without an exit predicate no exit check answers true, and a run that
    the size check does not abort executes the generations
    [1 .. num_generations], all of them. *)
Theorem exit_check_once_per_generation_after_checkpoint
    ga_input (w : World E) :
  let s := start_of ga_input (cwd w) (env w) in
  let root_dir := cwd w ++ ["output"] in
  let size := s_pop_size s in
  let gens :=
    generations_of (seq 1 (num_generations ga_input)) (s_pop s) size
      (s_env s) in
  let r := run ga_input w in
  log r.2 =
    log w ++ s_events s
      ++ (gens ≫= generation_events root_dir ga_input size)
      ++ (if r.1 is Ok _ then final_events (cwd w) else []) ∧
  filter is_exit (s_events s) = [] ∧
  filter is_exit (final_events (cwd w)) = [] ∧
  (∀ g : Generation E,
     filter is_exit (generation_events root_dir ga_input size g) =
       [EvExit (g_survivors g) (g_exit g)] ∧
     ∃ before,
       generation_events root_dir ga_input size g =
         before
         ++ [ EvWrite ((root_dir ++ [pretty (g_index g)]) ++ ["selected"])
                (g_survivors g);
              EvDump ((root_dir ++ [pretty (g_index g)]) ++ ["selected"])
                "pop_dump" (g_survivors g);
              EvPrintInfo "Recording progress.";
              EvProgressUpdate (g_survivors g);
              EvExit (g_survivors g) (g_exit g) ]) ∧
  (∀ g, g ∈ gens → ∃ e0, g_exit g = (exit (g_survivors g) e0).1) ∧
  (∀ i g,
     gens !! i = Some g → g_exit g = true →
     length gens = S i ∧ r.1 = Ok (g_survivors g)) ∧
  (exit_func = None →
     (∀ g, g ∈ gens → g_exit g = false) ∧
     (r.1 = Raise (PopulationSizeError "Population has the wrong size.") ∨
      (r.1 = Ok (pop_after (s_pop s) gens) ∧
       length gens = num_generations ga_input ∧
       g_index <$> gens = seq 1 (num_generations ga_input)))).
Proof.
  intros s root_dir size gens r.
  destruct (run_structure ga_input w) as (Hres & Hlog & _).
  fold s root_dir size gens r in Hres, Hlog.
  split_and!.
  - by rewrite Hres.
  - unfold s, start_of. cbn [s_events].
    by destruct (String.eqb (init_func_name ga_input) "load").
  - reflexivity.
  - intros g. split; [reflexivity|].
    exists (take 25 (generation_events root_dir ga_input size g)).
    reflexivity.
  - intros g Hg. by eapply exit_answer_of_generation.
  - intros i g Hg Hexit. rewrite Hres.
    by eapply exit_ends_the_loop.
  - intros Hnone.
    assert (∀ g, g ∈ gens → g_exit g = false) as Hno.
    { intros g Hg. by eapply no_exit_func_never_exits. }
    split; [exact Hno|]. rewrite Hres.
    destruct (loop_outcome_cases (seq 1 (num_generations ga_input))
                (s_pop s) size (s_env s))
      as [[Hok Hend]|(Herr & _)]; [|by left].
    right. fold gens in Hok, Hend.
    assert (length gens = num_generations ga_input) as Hlen.
    { destruct Hend as [Hall|(g & Hlast & Hexit)].
      - by rewrite length_seq in Hall.
      - assert (g ∈ gens) as Hg.
        { apply last_Some in Hlast as [l' ->].
          apply elem_of_app. right. apply elem_of_cons. by left. }
        specialize (Hno g Hg). congruence. }
    split_and!; [done|done|].
    by apply generations_of_full_indices.
Qed.

(** C1 (as the code has it).  Every generation starts by comparing the
    flattened size of the population with [ga_input.pop_size]: on a
    mismatch [PopulationSizeError] is raised before anything else is
    done, nothing catches it, and the run ends there, without the final
    cleanup and archiving.  So variation only ever starts from a
    population of the right size.  The survivors of a generation are
    checked by the same comparison when the next generation starts. *)
Theorem size_checked_at_the_start_of_every_generation
    ga_input (w : World E) :
  let s := start_of ga_input (cwd w) (env w) in
  let root_dir := cwd w ++ ["output"] in
  let size := s_pop_size s in
  let gens :=
    generations_of (seq 1 (num_generations ga_input)) (s_pop s) size
      (s_env s) in
  let blocks := gens ≫= generation_events root_dir ga_input size in
  let r := run ga_input w in
  (∀ dir x pop (w0 : World E),
     len pop ≠ ga_input_pop_size w0 →
     generation dir ga_input x pop w0 =
       (Raise (PopulationSizeError "Population has the wrong size."), w0)) ∧
  ga_input_pop_size r.2 = size ∧
  Forall (λ g, len (g_parents g) = size) gens ∧
  (∀ i g g',
     gens !! i = Some g → gens !! S i = Some g' →
     g_parents g' = g_survivors g ∧ len (g_survivors g) = size) ∧
  ((r.1 = Ok (pop_after (s_pop s) gens) ∧
    log r.2 = log w ++ s_events s ++ blocks ++ final_events (cwd w) ∧
    (length gens = num_generations ga_input ∨
     ∃ g, last gens = Some g ∧ g_exit g = true)) ∨
   (r.1 = Raise (PopulationSizeError "Population has the wrong size.") ∧
    log r.2 = log w ++ s_events s ++ blocks ∧
    length gens < num_generations ga_input ∧
    len (pop_after (s_pop s) gens) ≠ size ∧
    ∀ g, g ∈ gens → g_exit g = false)).
Proof.
  intros s root_dir size gens blocks r.
  destruct (run_structure ga_input w) as (Hres & Hlog & Hsize).
  fold s root_dir size gens blocks r in Hres, Hlog, Hsize.
  pose proof (generations_of_parents_size
                (seq 1 (num_generations ga_input)) (s_pop s) size (s_env s))
    as Hparents.
  fold gens in Hparents.
  split_and!.
  - intros dir x pop w0. apply generation_wrong_size.
  - exact Hsize.
  - exact Hparents.
  - intros i g g' Hg Hg'.
    destruct (generations_of_chain _ _ _ _ _ _ _ Hg Hg') as [_ Hchain].
    split; [done|]. rewrite <- Hchain.
    rewrite Forall_forall in Hparents. apply Hparents.
    by eapply list_elem_of_lookup_2.
  - destruct (loop_outcome_cases (seq 1 (num_generations ga_input))
                (s_pop s) size (s_env s))
      as [[Hok Hend]|(Herr & Hlt & Hlen & Hno)].
    + left. fold gens in Hok, Hend. rewrite length_seq in Hend.
      rewrite Hok in Hres, Hlog. done.
    + right. fold gens in Herr, Hlt, Hlen, Hno. rewrite length_seq in Hlt.
      rewrite Herr in Hres, Hlog. rewrite !app_nil_r in Hlog. done.
Qed.

Lemma with_pop_size_generation k dir ga_input x pop :
  generation dir (with_pop_size k ga_input) x pop =
    generation dir ga_input x pop.
Proof. reflexivity. Qed.

Lemma with_pop_size_ga_loop k dir ga_input xs pop (w : World E) :
  ga_loop dir (with_pop_size k ga_input) xs pop w =
    ga_loop dir ga_input xs pop w.
Proof.
  revert pop w. induction xs as [|x xs IH]; intros pop w; [reflexivity|].
  cbn [ga_loop]. unfold bind. rewrite with_pop_size_generation.
  destruct (generation dir ga_input x pop w).1 as [[pop' stop]|e];
    [|reflexivity].
  cbn [fst snd]. destruct stop; [reflexivity|apply IH].
Qed.

Lemma with_pop_size_start_of_load k ga_input launch_dir (e : E) :
  init_func_name ga_input = "load" →
  start_of (with_pop_size k ga_input) launch_dir e =
    start_of ga_input launch_dir e.
Proof.
  intros Hload. unfold start_of, with_pop_size.
  cbn [init_func_name input_file pop_size]. by rewrite Hload.
Qed.

Lemma selection_sizes_generations dir ga_input size
    (gens : list (Generation E)) :
  selection_sizes (gens ≫= generation_events dir ga_input size) =
    replicate (length gens) size.
Proof.
  induction gens as [|g gens IH]; [reflexivity|].
  rewrite bind_cons. unfold selection_sizes in *. rewrite omap_app, IH.
  reflexivity.
Qed.

(** C2.  When the initializer is [load], it is called without a size,
    [ga_input.pop_size] becomes the size of the population it restores,
    and stays so to the end of the run.  Every size check of the run
    compares with that size and every survivor selection asks for that
    many members; the population size found in the input file has no
    influence on the run at all. *)
Theorem load_fixes_pop_size_for_the_run ga_input (w : World E) :
  init_func_name ga_input = "load" →
  let restored := (pop_init "load" None (env w)).1 in
  let s := start_of ga_input (cwd w) (env w) in
  let root_dir := cwd w ++ ["output"] in
  let xs := seq 1 (num_generations ga_input) in
  let gens := generations_of xs (s_pop s) (len restored) (s_env s) in
  let r := run ga_input w in
  s_restored s = restored ∧
  s_pop_size s = len restored ∧
  ga_input_pop_size r.2 = len restored ∧
  r.1 = loop_outcome xs (s_pop s) (len restored) (s_env s) ∧
  (∃ tail,
     log r.2 =
       log w ++ s_events s
         ++ (gens ≫= generation_events root_dir ga_input (len restored))
         ++ tail ∧
     selection_sizes (s_events s) = [] ∧
     selection_sizes tail = []) ∧
  Forall (λ g, len (g_parents g) = len restored) gens ∧
  selection_sizes
    (gens ≫= generation_events root_dir ga_input (len restored)) =
    replicate (length gens) (len restored) ∧
  (∀ k, run (with_pop_size k ga_input) w = run ga_input w).
Proof.
  intros Hload restored s root_dir xs gens r.
  assert (s_restored s = restored ∧ s_pop_size s = len restored)
    as [Hrestored Hsize].
  { unfold s, start_of, restored. rewrite Hload. by cbn. }
  destruct (run_structure ga_input w) as (Hres & Hlog & Hfinal).
  fold s root_dir xs r in Hres, Hlog, Hfinal.
  rewrite Hsize in Hres, Hlog, Hfinal. fold gens in Hlog.
  split_and!; try done.
  - eexists. split; [exact Hlog|]. split.
    + unfold s, start_of. rewrite Hload. reflexivity.
    + by destruct (loop_outcome _ _ _ _).
  - apply generations_of_parents_size.
  - apply selection_sizes_generations.
  - intros k. rewrite !run_split. unfold bind.
    rewrite !prologue_start. cbn zeta.
    rewrite (with_pop_size_start_of_load k ga_input _ _ Hload).
    cbn [fst snd]. rewrite with_pop_size_ga_loop. reflexivity.
Qed.

Lemma made_dirs_s_events ga_input launch_dir (e : E) :
  made_dirs (s_events (start_of ga_input launch_dir e)) =
    [launch_dir ++ ["output"]; (launch_dir ++ ["output"]) ++ ["initial"]].
Proof.
  unfold start_of. cbn [s_events].
  by destruct (String.eqb (init_func_name ga_input) "load").
Qed.

Lemma generation_dirs_first_of_three (root_dir : path) :
  filter (λ d, d ∈ (λ x, root_dir ++ [pretty x]) <$> seq 1 3)
    [root_dir; root_dir ++ ["initial"]; root_dir ++ ["1"];
     (root_dir ++ ["1"]) ++ ["selected"]] =
    [root_dir ++ ["1"]].
Proof.
  change ((λ x, root_dir ++ [pretty x]) <$> seq 1 3)
    with [root_dir ++ ["1"]; root_dir ++ ["2"]; root_dir ++ ["3"]].
  rewrite filter_cons_False; last first.
  { rewrite !elem_of_cons, elem_of_nil.
    intros [Heq|[Heq|[Heq|[]]]]; revert Heq; path_neq. }
  rewrite filter_cons_False; last first.
  { rewrite !elem_of_cons, elem_of_nil.
    intros [Heq|[Heq|[Heq|[]]]]; revert Heq; path_neq. }
  rewrite filter_cons_True by (apply elem_of_cons; by left).
  rewrite filter_cons_False; last first.
  { rewrite !elem_of_cons, elem_of_nil.
    intros [Heq|[Heq|[Heq|[]]]]; revert Heq; path_neq. }
  reflexivity.
Qed.

(** When the exit check of generation 1 already answers true, a run
    configured for 3 generations ends with the survivors of generation 1
    and creates [output], [output/initial], [output/1] and
    [output/1/selected]: one directory of a generation. *)
Lemma exit_at_the_first_check_leaves_one_directory
    ga_input (w : World E) :
  let s := start_of ga_input (cwd w) (env w) in
  let root_dir := cwd w ++ ["output"] in
  let g1 := generation_of 1 (s_pop s) (s_pop_size s) (s_env s) in
  let r := run ga_input w in
  num_generations ga_input = 3 →
  log w = [] →
  len (s_pop s) = s_pop_size s →
  g_exit g1 = true →
  r.1 = Ok (g_survivors g1) ∧
  made_dirs (log r.2) =
    [ root_dir; root_dir ++ ["initial"]; root_dir ++ ["1"];
      (root_dir ++ ["1"]) ++ ["selected"] ] ∧
  generation_dirs root_dir (num_generations ga_input) (log r.2) =
    [root_dir ++ ["1"]] ∧
  length (generation_dirs root_dir (num_generations ga_input) (log r.2)) = 1.
Proof.
  intros s root_dir g1 r Hthree Hlog0 Hlen Hexit.
  destruct (run_structure ga_input w) as (Hres & Hlog & _).
  fold s root_dir r in Hres, Hlog.
  rewrite Hthree in Hres, Hlog. cbn [seq generations_of loop_outcome] in *.
  apply Nat.eqb_eq in Hlen. rewrite Hlen in Hres, Hlog.
  fold g1 in Hres, Hlog. rewrite Hexit in Hres, Hlog.
  rewrite Hlog0, bind_singleton in Hlog. cbn [app] in Hlog.
  assert (made_dirs (log r.2) =
            [ root_dir; root_dir ++ ["initial"]; root_dir ++ ["1"];
              (root_dir ++ ["1"]) ++ ["selected"] ]) as Hmade.
  { rewrite Hlog. unfold made_dirs. rewrite !omap_app.
    fold (made_dirs (s_events s)).
    unfold s. rewrite made_dirs_s_events. reflexivity. }
  split_and!; [done|done| |].
  - unfold generation_dirs. rewrite Hmade, Hthree.
    apply generation_dirs_first_of_three.
  - unfold generation_dirs. rewrite Hmade, Hthree.
    by rewrite generation_dirs_first_of_three.
Qed.

Lemma generation_dirs_two_of_three (root_dir : path) :
  filter (λ d, d ∈ (λ x, root_dir ++ [pretty x]) <$> seq 1 3)
    [root_dir; root_dir ++ ["initial"]; root_dir ++ ["1"];
     (root_dir ++ ["1"]) ++ ["selected"]; root_dir ++ ["2"];
     (root_dir ++ ["2"]) ++ ["selected"]] =
    [root_dir ++ ["1"]; root_dir ++ ["2"]].
Proof.
  change ((λ x, root_dir ++ [pretty x]) <$> seq 1 3)
    with [root_dir ++ ["1"]; root_dir ++ ["2"]; root_dir ++ ["3"]].
  rewrite filter_cons_False; last first.
  { rewrite !elem_of_cons, elem_of_nil.
    intros [Heq|[Heq|[Heq|[]]]]; revert Heq; path_neq. }
  rewrite filter_cons_False; last first.
  { rewrite !elem_of_cons, elem_of_nil.
    intros [Heq|[Heq|[Heq|[]]]]; revert Heq; path_neq. }
  rewrite filter_cons_True by (apply elem_of_cons; by left).
  rewrite filter_cons_False; last first.
  { rewrite !elem_of_cons, elem_of_nil.
    intros [Heq|[Heq|[Heq|[]]]]; revert Heq; path_neq. }
  rewrite filter_cons_True
    by (apply elem_of_cons; right; apply elem_of_cons; by left).
  rewrite filter_cons_False; last first.
  { rewrite !elem_of_cons, elem_of_nil.
    intros [Heq|[Heq|[Heq|[]]]]; revert Heq; path_neq. }
  reflexivity.
Qed.

(** C5.  A run configured for 3 generations whose exit predicate becomes
    true after generation 1, that is, answers false at the exit check
    that ends generation 1 and true at the next check, the one that
    ends generation 2, terminates there with the survivors of
    generation 2.  It has created [output], [output/initial], [output/1],
    [output/1/selected], [output/2] and [output/2/selected]: exactly two
    directories of a generation, [initial] counted separately, and no
    third one. *)
Theorem exit_after_generation_one_leaves_two_directories
    ga_input (w : World E) :
  let s := start_of ga_input (cwd w) (env w) in
  let root_dir := cwd w ++ ["output"] in
  let g1 := generation_of 1 (s_pop s) (s_pop_size s) (s_env s) in
  let g2 := generation_of 2 (g_survivors g1) (s_pop_size s) (g_env g1) in
  let r := run ga_input w in
  num_generations ga_input = 3 →
  len (s_pop s) = s_pop_size s →
  g_exit g1 = false →
  len (g_survivors g1) = s_pop_size s →
  g_exit g2 = true →
  r.1 = Ok (g_survivors g2) ∧
  (∃ acts,
     log r.2 = log w ++ acts ∧
     made_dirs acts =
       [ root_dir; root_dir ++ ["initial"]; root_dir ++ ["1"];
         (root_dir ++ ["1"]) ++ ["selected"]; root_dir ++ ["2"];
         (root_dir ++ ["2"]) ++ ["selected"] ] ∧
     generation_dirs root_dir (num_generations ga_input) acts =
       [root_dir ++ ["1"]; root_dir ++ ["2"]] ∧
     length (generation_dirs root_dir (num_generations ga_input) acts) = 2 ∧
     (root_dir ++ ["3"] ∉ made_dirs acts) ∧
     filter is_exit acts = [EvExit (g_survivors g1) false;
                            EvExit (g_survivors g2) true]) ∧
  (log w = [] → two_generation_directories ga_input w).
Proof.
  intros s root_dir g1 g2 r Hthree Hlen Hexit1 Hlen1 Hexit2.
  destruct (run_structure ga_input w) as (Hres & Hlog & _).
  fold s root_dir r in Hres, Hlog.
  rewrite Hthree in Hres, Hlog. cbn [seq generations_of loop_outcome] in *.
  apply Nat.eqb_eq in Hlen. rewrite Hlen in Hres, Hlog.
  fold g1 in Hres, Hlog. rewrite Hexit1 in Hres, Hlog.
  apply Nat.eqb_eq in Hlen1. rewrite Hlen1 in Hres, Hlog.
  fold g2 in Hres, Hlog. rewrite Hexit2 in Hres, Hlog.
  rewrite bind_cons, bind_singleton in Hlog.
  set (acts := s_events s
                 ++ (generation_events root_dir ga_input (s_pop_size s) g1
                       ++ generation_events root_dir ga_input (s_pop_size s)
                            g2)
                 ++ final_events (cwd w)) in *.
  assert (made_dirs acts =
            [ root_dir; root_dir ++ ["initial"]; root_dir ++ ["1"];
              (root_dir ++ ["1"]) ++ ["selected"]; root_dir ++ ["2"];
              (root_dir ++ ["2"]) ++ ["selected"] ]) as Hmade.
  { unfold acts, made_dirs. rewrite !omap_app.
    fold (made_dirs (s_events s)).
    unfold s. rewrite made_dirs_s_events. reflexivity. }
  assert (generation_dirs root_dir (num_generations ga_input) acts =
            [root_dir ++ ["1"]; root_dir ++ ["2"]]) as Hdirs.
  { unfold generation_dirs. rewrite Hmade, Hthree.
    apply generation_dirs_two_of_three. }
  split_and!; [done| |].
  - exists acts. split_and!; [done|done|done|by rewrite Hdirs| |].
    + rewrite Hmade, !elem_of_cons, elem_of_nil.
      intros [Heq|[Heq|[Heq|[Heq|[Heq|[Heq|[]]]]]]]; revert Heq; path_neq.
    + unfold acts. rewrite !filter_app.
      assert (filter is_exit (s_events s) = []) as ->.
      { unfold s, start_of. cbn [s_events].
        by destruct (String.eqb (init_func_name ga_input) "load"). }
      transitivity [EvExit (g_survivors g1) (g_exit g1);
                    EvExit (g_survivors g2) (g_exit g2)];
        [reflexivity|by rewrite Hexit1, Hexit2].
  - intros Hlog0. unfold two_generation_directories. fold root_dir r.
    rewrite Hlog, Hlog0. cbn [app]. by rewrite Hdirs.
Qed.

End DriverFacts.

(** ** Lines 131 and 135 on objects: merging and removing duplicates *)


Lemma PopRef_nested_ind (P : PopRef → Prop) :
  (∀ l subs, Forall P subs → P (mkRef l subs)) → ∀ r, P r.
Proof.
  intros Hnode. fix IH 1. intros [l subs]. apply Hnode.
  induction subs as [|q qs IHqs]; constructor; [apply IH|exact IHqs].
Qed.


Lemma remove_duplicates_from_node seen ms ps :
  remove_duplicates_from seen (mkPopulation ms ps) =
    (mkPopulation (dedupe seen ms).1
       (remove_duplicates_from_list (dedupe seen ms).2 ps).1,
     (remove_duplicates_from_list (dedupe seen ms).2 ps).2).
Proof. reflexivity. Qed.

Lemma contents_node st l subs :
  contents st (mkRef l subs) =
    mkPopulation (default [] (st !! l)) (contents_list st subs).
Proof.
  cbn [contents]. f_equal.
  induction subs as [|q qs IH]; [reflexivity|].
  cbn [contents_list]. by rewrite <- IH.
Qed.

Lemma objects_node l subs : objects (mkRef l subs) = l :: objects_list subs.
Proof. reflexivity. Qed.

Lemma scan_in_place_node st seen l subs :
  scan_in_place st seen (mkRef l subs) =
    scan_in_place_list
      (<[l := (dedupe seen (default [] (st !! l))).1]> st)
      (dedupe seen (default [] (st !! l))).2 subs.
Proof. reflexivity. Qed.




Lemma contents_list_frame st1 st2 qs :
  Forall (λ r, ∀ st1 st2 : Store,
            (∀ l, l ∈ objects r → st1 !! l = st2 !! l) →
            contents st1 r = contents st2 r) qs →
  (∀ l, l ∈ objects_list qs → st1 !! l = st2 !! l) →
  contents_list st1 qs = contents_list st2 qs.
Proof.
  induction 1 as [|q qs Hq _ IH]; intros Hsame; [reflexivity|].
  cbn [contents_list]. f_equal.
  - apply Hq. intros l Hl. apply Hsame. cbn. apply elem_of_app. by left.
  - apply IH. intros l Hl. apply Hsame. cbn. apply elem_of_app. by right.
Qed.

(** A reference stands for the same population in two stores that agree
    on its objects. *)
Lemma contents_frame r :
  ∀ st1 st2 : Store,
    (∀ l, l ∈ objects r → st1 !! l = st2 !! l) →
    contents st1 r = contents st2 r.
Proof.
  induction r as [l subs IH] using PopRef_nested_ind. intros st1 st2 Hsame.
  rewrite !contents_node. f_equal.
  - rewrite (Hsame l); [done|]. rewrite objects_node. apply elem_of_cons.
    by left.
  - apply contents_list_frame; [done|]. intros l' Hl'. apply Hsame.
    rewrite objects_node. apply elem_of_cons. by right.
Qed.

Lemma scan_in_place_list_frame qs :
  Forall (λ r, ∀ (st : Store) seen l,
            l ∉ objects r →
            (scan_in_place st seen r).1 !! l = st !! l) qs →
  ∀ (st : Store) seen l,
    l ∉ objects_list qs →
    (scan_in_place_list st seen qs).1 !! l = st !! l.
Proof.
  induction 1 as [|q qs Hq _ IH]; intros st seen l Hl; [reflexivity|].
  cbn [scan_in_place_list]. cbn [objects_list] in Hl.
  rewrite elem_of_app in Hl. rewrite IH by tauto. apply Hq. tauto.
Qed.

(** The scan done in place leaves the objects outside the reference
    alone. *)
Lemma scan_in_place_frame r :
  ∀ (st : Store) seen l,
    l ∉ objects r →
    (scan_in_place st seen r).1 !! l = st !! l.
Proof.
  induction r as [l0 subs IH] using PopRef_nested_ind. intros st seen l Hl.
  rewrite scan_in_place_node. rewrite objects_node in Hl.
  rewrite not_elem_of_cons in Hl. destruct Hl as [Hne Hl].
  rewrite scan_in_place_list_frame by done.
  by rewrite lookup_insert_ne.
Qed.

Lemma contents_list_frame_all st1 st2 qs :
  (∀ l, l ∈ objects_list qs → st1 !! l = st2 !! l) →
  contents_list st1 qs = contents_list st2 qs.
Proof.
  apply contents_list_frame. apply Forall_forall. intros r _.
  apply contents_frame.
Qed.

Lemma scan_in_place_list_frame_all qs (st : Store) seen l :
  l ∉ objects_list qs →
  (scan_in_place_list st seen qs).1 !! l = st !! l.
Proof.
  apply scan_in_place_list_frame. apply Forall_forall.
  intros r _. apply scan_in_place_frame.
Qed.

Lemma scan_in_place_list_contents qs :
  Forall (λ r, ∀ (st : Store) seen,
            NoDup (objects r) →
            contents (scan_in_place st seen r).1 r =
              (remove_duplicates_from seen (contents st r)).1 ∧
            (scan_in_place st seen r).2 =
              (remove_duplicates_from seen (contents st r)).2) qs →
  ∀ (st : Store) seen,
    NoDup (objects_list qs) →
    contents_list (scan_in_place_list st seen qs).1 qs =
      (remove_duplicates_from_list seen (contents_list st qs)).1 ∧
    (scan_in_place_list st seen qs).2 =
      (remove_duplicates_from_list seen (contents_list st qs)).2.
Proof.
  induction 1 as [|q qs Hq _ IH]; intros st seen Hnodup; [done|].
  cbn [objects_list] in Hnodup.
  apply NoDup_app in Hnodup as (Hq_nodup & Hdisjoint & Hqs_nodup).
  cbn [scan_in_place_list contents_list
       remove_duplicates_from_list fst snd].
  destruct (Hq st seen Hq_nodup) as [Hq1 Hq2].
  set (st' := (scan_in_place st seen q).1) in *.
  set (seen' := (scan_in_place st seen q).2) in *.
  destruct (IH st' seen' Hqs_nodup) as [IH1 IH2].
  assert (contents_list st' qs = contents_list st qs) as Hqs.
  { apply contents_list_frame_all. intros l Hl.
    apply scan_in_place_frame. intros Hin.
    by apply (Hdisjoint l). }
  rewrite Hqs in IH1, IH2. rewrite <- Hq2. split; [|done].
  f_equal; [|done].
  rewrite <- Hq1. apply contents_frame. intros l Hl.
  apply scan_in_place_list_frame_all. by apply Hdisjoint.
Qed.

(** On distinct objects, the scan done in place leaves in the store
    what [remove_duplicates_from] computes on population values. *)
Lemma scan_in_place_contents r :
  ∀ (st : Store) seen,
    NoDup (objects r) →
    contents (scan_in_place st seen r).1 r =
      (remove_duplicates_from seen (contents st r)).1 ∧
    (scan_in_place st seen r).2 =
      (remove_duplicates_from seen (contents st r)).2.
Proof.
  induction r as [l subs IH] using PopRef_nested_ind.
  intros st seen Hnodup. rewrite objects_node in Hnodup.
  apply NoDup_cons in Hnodup as [Hl Hsubs].
  rewrite scan_in_place_node, !contents_node,
    remove_duplicates_from_node. cbn [fst snd].
  set (d := dedupe seen (default [] (st !! l))).
  destruct (scan_in_place_list_contents subs IH
              (<[l := d.1]> st) d.2 Hsubs) as [H1 H2].
  assert (contents_list (<[l := d.1]> st) subs = contents_list st subs)
    as Hsame.
  { apply contents_list_frame_all. intros l' Hl'.
    apply lookup_insert_ne. by intros ->. }
  rewrite Hsame in H1, H2. rewrite H1, H2. split; [|done].
  f_equal. rewrite scan_in_place_list_frame_all by done.
  by rewrite lookup_insert_eq.
Qed.







(** ** The statements above on sample inputs *)

(** C1, the claim as the specification words it, fails: with two members
    wanted and one generation, an initial population of two members of
    the same identity passes the check, loses its duplicate, and
    selection leaves one member; no check follows, the run ends
    normally. *)
Lemma last_survivors_are_not_checked :
  (run (GATools0 := sample_tools [ethane; ethane_again] None)
     one_generation sample_world).1 = Ok (Population_of [ethane]) ∧
  ¬ fatal_check_after_every_selection
      (GATools0 := sample_tools [ethane; ethane_again] None)
      one_generation sample_world.
Proof.
  split; [by vm_compute|].
  unfold fatal_check_after_every_selection. intros Hclaim.
  set (tools := sample_tools [ethane; ethane_again] None) in *.
  set (s := start_of (GATools0 := tools) one_generation
              (cwd sample_world) (env sample_world)) in *.
  specialize
    (Hclaim (generation_of (GATools0 := tools) 1 (s_pop s) (s_pop_size s)
               (s_env s))).
  assert ((run (GATools0 := tools) one_generation sample_world).1 =
            Raise (PopulationSizeError "Population has the wrong size."))
    as Hraise.
  { apply Hclaim.
    - vm_compute. apply elem_of_cons. by left.
    - vm_compute. discriminate. }
  vm_compute in Hraise. discriminate Hraise.
Qed.

(** C2 on a restart from three members with a configured size of 7. *)
Lemma load_fixes_pop_size_witness :
  init_func_name restart = "load" ∧
  ga_input_pop_size
    (run (GATools0 := sample_tools [ethane; propane; butane] None)
       restart sample_world).2 = 3.
Proof.
  split; [reflexivity|].
  exact (proj1 (proj2 (proj2
    (load_fixes_pop_size_for_the_run
       (GATools0 := sample_tools [ethane; propane; butane] None)
       restart sample_world eq_refl)))).
Defined.



(** C5 on strategies under which fitness rises by one per evaluation
    and the exit predicate asks for a fitness of 8: it answers false on
    the survivors of generation 1, whose best member has 7, and true on
    those of generation 2. *)
Lemma exit_after_generation_one_witness :
  num_generations three_generations = 3 ∧
  (run (GATools0 := improving_tools [ethane; propane])
     three_generations sample_world).1 =
    Ok (Population_of
          [ mkMacroMolecule "CC" ["old"; "0.mol"] (Some 6%Z);
            mkMacroMolecule "CCC" ["old"; "2.mol"] (Some 8%Z) ]) ∧
  two_generation_directories
    (GATools0 := improving_tools [ethane; propane])
    three_generations sample_world.
Proof.
  split; [reflexivity|].
  destruct (exit_after_generation_one_leaves_two_directories
              (GATools0 := improving_tools [ethane; propane])
              three_generations sample_world eq_refl eq_refl eq_refl eq_refl
              eq_refl) as (Hres & _ & Htwo).
  split; [rewrite Hres; by vm_compute|by apply Htwo].
Defined.

(** * Further properties of the code *)

(** ** Functional groups of a building block *)

Lemma tuple_get_nonneg {A} (t : list A) (i : nat) (a : A) :
  t !! i = Some a → tuple_get t (Z.of_nat i) = Ok a.
Proof.
  intros Hi. pose proof (lookup_lt_Some _ _ _ Hi) as Hlt.
  unfold tuple_get.
  destruct (Z.ltb_spec (Z.of_nat i) 0) as [Hneg|_]; [lia|].
  destruct (Z.leb_spec 0 (Z.of_nat i)) as [_|Hneg]; [|lia].
  destruct (Z.ltb_spec (Z.of_nat i) (Z.of_nat (length t))) as [_|Hge]; [|lia].
  cbn. by rewrite Nat2Z.id, Hi.
Qed.

Lemma tuple_get_in_range {A} (t : list A) (i : Z) :
  (- Z.of_nat (length t) ≤ i < Z.of_nat (length t))%Z →
  ∃ a,
    tuple_get t i = Ok a ∧
    t !! Z.to_nat (if (i <? 0)%Z then i + Z.of_nat (length t) else i)%Z
      = Some a.
Proof.
  intros Hrange. unfold tuple_get.
  set (j := (if (i <? 0)%Z then (i + Z.of_nat (length t))%Z else i)).
  assert (0 ≤ j < Z.of_nat (length t))%Z as Hj.
  { unfold j. destruct (Z.ltb_spec i 0); lia. }
  destruct (Z.leb_spec 0 j) as [_|Hneg]; [|lia].
  destruct (Z.ltb_spec j (Z.of_nat (length t))) as [_|Hge]; [|lia].
  cbn. destruct (t !! Z.to_nat j) as [a|] eqn:Ha; [by exists a|].
  apply lookup_ge_None in Ha. lia.
Qed.

Lemma tuple_get_out_of_range {A} (t : list A) (i : Z) :
  ¬ (- Z.of_nat (length t) ≤ i < Z.of_nat (length t))%Z →
  tuple_get t i = Raise (OtherError "IndexError").
Proof.
  intros Hrange. unfold tuple_get.
  destruct (Z.ltb_spec i 0) as [Hneg|Hpos].
  - destruct (Z.leb_spec 0 (i + Z.of_nat (length t))) as [Hle|_];
      [lia|reflexivity].
  - destruct (Z.leb_spec 0 i) as [_|Hlt]; [|lia].
    destruct (Z.ltb_spec i (Z.of_nat (length t))) as [Hlt|_];
      [lia|reflexivity].
Qed.

Lemma yield_items_range {A} (t : list A) (a k : nat) :
  a + k ≤ length t →
  yield_items t (Z.of_nat <$> seq a k) = (take k (drop a t), None).
Proof.
  revert a. induction k as [|k IH]; intros a Hle; [reflexivity|].
  cbn [seq fmap list_fmap yield_items].
  destruct (lookup_lt_is_Some_2 t a) as [x Hx]; [lia|].
  rewrite (tuple_get_nonneg t a x Hx).
  change (list_fmap nat Z Z.of_nat (seq (S a) k))
    with (Z.of_nat <$> seq (S a) k).
  rewrite IH by lia. cbn [fst snd].
  by rewrite (drop_S t x a Hx).
Qed.

Lemma yield_items_in_range {A} (t : list A) (ids : list Z) :
  Forall (λ i, - Z.of_nat (length t) ≤ i < Z.of_nat (length t))%Z ids →
  (yield_items t ids).2 = None ∧
  length (yield_items t ids).1 = length ids.
Proof.
  induction 1 as [|i ids Hi _ [IH1 IH2]]; [done|].
  cbn [yield_items]. destruct (tuple_get_in_range t i Hi) as (a & -> & _).
  cbn. by rewrite IH1, IH2.
Qed.

Lemma yield_items_app_bad {A} (t : list A) (ok : list Z) (bad : Z)
    (rest : list Z) :
  Forall (λ i, - Z.of_nat (length t) ≤ i < Z.of_nat (length t))%Z ok →
  ¬ (- Z.of_nat (length t) ≤ bad < Z.of_nat (length t))%Z →
  yield_items t (ok ++ bad :: rest) =
    ((yield_items t ok).1, Some (OtherError "IndexError")).
Proof.
  intros Hok Hbad. induction Hok as [|i ok Hi _ IH].
  - cbn. by rewrite (tuple_get_out_of_range t bad Hbad).
  - cbn [app yield_items].
    destruct (tuple_get_in_range t i Hi) as (a & -> & _).
    by rewrite IH.
Qed.

(** [atom_map_of]: a later atom replaces an earlier one with the same
    id. *)
Lemma atom_map_of_lookup (atoms : list Atom) (id : Z) :
  atom_map_of atoms !! id = last (filter (λ a, get_id a = id) atoms).
Proof.
  unfold atom_map_of.
  assert (∀ m : gmap Z Atom,
            foldl (λ m a, <[get_id a := a]> m) m atoms !! id =
              match last (filter (λ a, get_id a = id) atoms) with
              | Some a => Some a
              | None => m !! id
              end) as Hgen.
  { induction atoms as [|a atoms IH]; intros m; [reflexivity|].
    cbn [foldl]. rewrite IH, filter_cons.
    destruct (decide (get_id a = id)) as [<-|Hne].
    - rewrite last_cons, lookup_insert_eq.
      by destruct (last (filter _ atoms)).
    - by rewrite lookup_insert_ne. }
  rewrite Hgen, lookup_empty. by destruct (last _).
Qed.

Lemma atom_map_of_atom (atoms : list Atom) (a : Atom) :
  NoDup (get_id <$> atoms) → a ∈ atoms →
  atom_map_of atoms !! get_id a = Some a.
Proof.
  intros Hnodup Ha. rewrite atom_map_of_lookup.
  induction atoms as [|b atoms IH]; [by apply elem_of_nil in Ha|].
  cbn [fmap list_fmap] in Hnodup. apply NoDup_cons in Hnodup as [Hb Hnodup].
  rewrite filter_cons. apply elem_of_cons in Ha as [->|Ha].
  - rewrite decide_True by done.
    assert (filter (λ x, get_id x = get_id b) atoms = []) as ->;
      [|reflexivity].
    clear IH Hnodup. induction atoms as [|x atoms IHx]; [reflexivity|].
    rewrite filter_cons_False.
    + apply IHx. intros Hin. apply Hb. cbn. apply elem_of_cons. by right.
    + intros Heq. apply Hb. cbn. apply elem_of_cons. by left.
  - destruct (decide (get_id b = get_id a)) as [Heq|_].
    + exfalso. apply Hb. rewrite Heq. apply list_elem_of_fmap.
      by exists a.
    + by apply IH.
Qed.

Section BuildingBlockMethodFacts.
Context {FG Factory : Type} `{!FunctionalGroups FG Factory}
  `{!FunctionalGroupAtoms FG}.

(** X1.  Without ids, [get_functional_groups] yields every functional
    group of the building block once, in the order of the tuple, and
    ends normally; so it yields [get_num_functional_groups()] groups,
    and asking for a single id is asking for the one-element tuple of
    that id. *)
Theorem get_functional_groups_without_ids_yields_all
    (self : BuildingBlock FG) :
  get_functional_groups self AllGroups = (_functional_groups self, None) ∧
  length (get_functional_groups self AllGroups).1 =
    get_num_functional_groups self ∧
  ∀ fg_id,
    get_functional_groups self (OneId fg_id) =
      get_functional_groups self (ManyIds [fg_id]).
Proof.
  assert (get_functional_groups self AllGroups =
            (_functional_groups self, None)) as Hall.
  { unfold get_functional_groups.
    rewrite yield_items_range by lia.
    by rewrite drop_0, firstn_all. }
  split_and!; [exact Hall|by rewrite Hall|reflexivity].
Qed.

(** X2.  With ids that all lie between [-n] and [n - 1], for [n]
    functional groups, [get_functional_groups] yields one group per id
    and ends normally; a negative id [i] yields the group at [n + i]. *)
Theorem get_functional_groups_ids_in_range
    (self : BuildingBlock FG) (fg_ids : list Z) :
  let n := Z.of_nat (get_num_functional_groups self) in
  Forall (λ i, - n ≤ i < n)%Z fg_ids →
  (get_functional_groups self (ManyIds fg_ids)).2 = None ∧
  length (get_functional_groups self (ManyIds fg_ids)).1 = length fg_ids ∧
  ∀ k i,
    fg_ids !! k = Some i →
    (get_functional_groups self (ManyIds fg_ids)).1 !! k =
      _functional_groups self
        !! Z.to_nat (if (i <? 0)%Z then i + n else i)%Z.
Proof.
  intros n Hrange. subst n. unfold get_num_functional_groups in *.
  unfold get_functional_groups.
  destruct (yield_items_in_range _ _ Hrange) as [Hnone Hlen].
  split_and!; [done|done|].
  clear Hnone Hlen. induction Hrange as [|j ids Hj _ IH]; intros k i Hk.
  - by rewrite lookup_nil in Hk.
  - cbn [yield_items].
    destruct (tuple_get_in_range _ j Hj) as (a & -> & Ha).
    destruct k as [|k]; cbn in Hk |- *.
    + injection Hk as <-. by rewrite Ha.
    + by apply IH.
Qed.

(** X3.  An id outside [-n .. n - 1] ends [get_functional_groups] with
    [IndexError], after the groups of the ids before it have been
    yielded and before any later id is looked at. *)
Theorem get_functional_groups_id_out_of_range
    (self : BuildingBlock FG) (ok : list Z) (bad : Z) (rest : list Z) :
  let n := Z.of_nat (get_num_functional_groups self) in
  Forall (λ i, - n ≤ i < n)%Z ok →
  ¬ (- n ≤ bad < n)%Z →
  get_functional_groups self (ManyIds (ok ++ bad :: rest)) =
    ((get_functional_groups self (ManyIds ok)).1,
     Some (OtherError "IndexError")) ∧
  length (get_functional_groups self (ManyIds (ok ++ bad :: rest))).1 =
    length ok.
Proof.
  intros n Hok Hbad. subst n. unfold get_num_functional_groups in *.
  unfold get_functional_groups.
  rewrite (yield_items_app_bad _ ok bad rest Hok Hbad).
  split; [reflexivity|]. cbn [fst].
  by destruct (yield_items_in_range _ _ Hok) as [_ ->].
Qed.

(** X4.  [with_functional_groups] returns a clone that has the atoms,
    the bonds, the positions and the placer ids of the original and, as
    its functional groups, exactly the groups passed, in the order
    passed, each one after [with_atoms] on the atom map of the molecule;
    the groups the original had are gone.  The atom map sends an id to
    the last atom of the molecule with that id, so to the atom itself
    when ids are not repeated.  The placer ids are not resolved again: a
    building block initialized without functional groups and without
    placer ids keeps all its atoms as placers, whatever groups are given
    to it later. *)
Theorem with_functional_groups_replaces_the_groups
    (self : BuildingBlock FG) (functional_groups : list FG) :
  let clone := with_functional_groups self functional_groups in
  let atom_map := atom_map_of (_atoms (bb_molecule self)) in
  bb_molecule clone = bb_molecule self ∧
  get_placer_ids clone = get_placer_ids self ∧
  get_functional_groups clone AllGroups =
    (fg_with_atoms atom_map <$> functional_groups, None) ∧
  (∀ (i : nat) fg,
     functional_groups !! i = Some fg →
     get_functional_groups clone (OneId (Z.of_nat i)) =
       ([fg_with_atoms atom_map fg], None)) ∧
  (∀ id,
     atom_map !! id =
       last (filter (λ a, get_id a = id) (_atoms (bb_molecule self)))) ∧
  (NoDup (get_id <$> _atoms (bb_molecule self)) →
   ∀ a, a ∈ _atoms (bb_molecule self) → atom_map !! get_id a = Some a) ∧
  (∀ more,
     with_functional_groups clone more = with_functional_groups self more) ∧
  ∀ atoms bonds position_matrix,
    get_placer_ids
      (with_functional_groups
         (init atoms bonds position_matrix (Several []) None)
         functional_groups) = get_id <$> atoms.
Proof.
  intros clone atom_map.
  assert (_functional_groups clone =
            fg_with_atoms atom_map <$> functional_groups) as Hgroups
    by reflexivity.
  split_and!; try reflexivity.
  - unfold get_functional_groups. rewrite Hgroups.
    rewrite (yield_items_range _ 0) by (cbn; lia).
    by rewrite drop_0, firstn_all.
  - intros i fg Hi. unfold get_functional_groups. rewrite Hgroups.
    cbn [yield_items].
    rewrite (tuple_get_nonneg _ i (fg_with_atoms atom_map fg));
      [reflexivity|].
    by rewrite list_lookup_fmap, Hi.
  - intros id. apply atom_map_of_lookup.
  - intros Hnodup a Ha. by apply atom_map_of_atom.
Qed.

(** X5.  [_extract_functional_groups] keeps the order of its argument:
    a functional group stands for itself, a factory for the groups it
    finds in the molecule, at its place.  A single functional group or
    factory is treated as the one-element tuple holding it, and the
    groups of a concatenation are the concatenation of the groups. *)
Theorem extract_functional_groups_in_order (self : Molecule) :
  (∀ x : FgOrFactory FG Factory,
     _extract_functional_groups self (NonIterable x) =
       _extract_functional_groups self (Several [x])) ∧
  (∀ xs ys : list (FgOrFactory FG Factory),
     _extract_functional_groups self (Several (xs ++ ys)) =
       _extract_functional_groups self (Several xs)
       ++ _extract_functional_groups self (Several ys)) ∧
  (∀ fgs : list FG,
     _extract_functional_groups self (Several (AGroup <$> fgs)) = fgs) ∧
  (∀ (before after : list FG) (f : Factory),
     _extract_functional_groups self
       (Several ((AGroup <$> before) ++ AFactory f :: (AGroup <$> after))) =
       before ++ factory_get_functional_groups f self ++ after).
Proof.
  assert (∀ fgs : list FG,
            _extract_functional_groups self (Several (AGroup <$> fgs)) = fgs)
    as Hgroups.
  { intros fgs. unfold _extract_functional_groups.
    induction fgs as [|fg fgs IH]; [reflexivity|].
    rewrite fmap_cons, bind_cons, IH. reflexivity. }
  assert (∀ xs ys : list (FgOrFactory FG Factory),
            _extract_functional_groups self (Several (xs ++ ys)) =
              _extract_functional_groups self (Several xs)
              ++ _extract_functional_groups self (Several ys)) as Happ.
  { intros xs ys. unfold _extract_functional_groups. apply bind_app. }
  split_and!; [reflexivity|exact Happ|exact Hgroups|].
  intros before after f. rewrite Happ, Hgroups. f_equal.
  change (AFactory f :: (AGroup <$> after))
    with ([AFactory f] ++ (AGroup <$> after)).
  rewrite Happ, Hgroups. unfold _extract_functional_groups.
  by rewrite bind_singleton.
Qed.

(** X6.  An id is yielded by [get_core_atom_ids] exactly when it is the
    id of an atom that is in no functional group, or a core atom id of
    some functional group.  For a building block without functional
    groups these are the ids of all atoms, in the order of the atoms. *)
Theorem get_core_atom_ids_membership (self : BuildingBlock FG) :
  (∀ atom_id,
     atom_id ∈ get_core_atom_ids self ↔
       (atom_id ∈ get_id <$> _atoms (bb_molecule self) ∧
        ∀ fg, fg ∈ _functional_groups self →
              atom_id ∉ fg_get_atom_ids fg) ∨
       (∃ fg, fg ∈ _functional_groups self ∧
              atom_id ∈ fg_get_core_atom_ids fg)) ∧
  (_functional_groups self = [] →
   get_core_atom_ids self = get_id <$> _atoms (bb_molecule self)).
Proof.
  split.
  - intros atom_id. unfold get_core_atom_ids.
    rewrite elem_of_app, list_elem_of_filter, elem_of_list_to_set.
    rewrite !list_elem_of_bind. split.
    + intros [[Hnot Hatom]|(fg & Hin & Hfg)]; [left|right; by exists fg].
      split; [done|]. intros fg Hfg Hin. apply Hnot. by exists fg.
    + intros [[Hatom Hnot]|(fg & Hfg & Hin)]; [left|right; by exists fg].
      split; [|done]. intros (fg & Hin & Hfg). by apply (Hnot fg).
  - intros Hnone. unfold get_core_atom_ids. rewrite Hnone.
    cbn [mbind list_bind list_to_set foldr]. rewrite app_nil_r.
    induction (get_id <$> _atoms (bb_molecule self)) as [|x l IH];
      [reflexivity|].
    rewrite filter_cons_True by apply not_elem_of_empty. by rewrite IH.
Qed.

End BuildingBlockMethodFacts.

(** ** Building blocks made from rdkit molecules *)

Lemma bonds_of_in_range atoms bs :
  Forall (bond_in_range (length atoms)) bs →
  ∃ bonds,
    bonds_of atoms bs = Ok bonds ∧
    length bonds = length bs ∧
    ∀ i b,
      bs !! i = Some b →
      ∃ a1 a2,
        atoms !! GetBeginAtomIdx b = Some a1 ∧
        atoms !! GetEndAtomIdx b = Some a2 ∧
        bonds !! i = Some (mkBond a1 a2 (order_of b)).
Proof.
  induction 1 as [|b bs [Hb1 Hb2] _ (bonds & Hbonds & Hlen & Hnth)].
  - exists []. split_and!; [done|done|]. intros i b Hi.
    by rewrite lookup_nil in Hi.
  - destruct (lookup_lt_is_Some_2 atoms _ Hb1) as [a1 Ha1].
    destruct (lookup_lt_is_Some_2 atoms _ Hb2) as [a2 Ha2].
    exists (mkBond a1 a2 (order_of b) :: bonds).
    split_and!.
    + cbn [bonds_of]. unfold atom_at. rewrite Ha1, Ha2. cbn [result_bind].
      rewrite Hbonds. reflexivity.
    + cbn. by rewrite Hlen.
    + intros [|i] b' Hi; cbn in Hi |- *.
      * injection Hi as <-. by exists a1, a2.
      * by apply Hnth.
Qed.

Section RdkitFacts.
Context {FG Factory : Type} `{!FunctionalGroups FG Factory} `{!RdkitIO}.

(** X7.  For an rdkit molecule whose bonds lie between atoms of the
    molecule, [init_from_rdkit_mol] succeeds exactly when the molecule
    has a conformer; without one it ends with the exception of
    [GetConformer()].  The building block has one atom per rdkit atom,
    in order, with its index, atomic number and formal charge, one bond
    per rdkit bond, in order, between the atoms at the two indices of
    the bond, and the positions of the conformer; the order of the bond
    is 9 when the rdkit bond is dative and the value of
    [GetBondTypeAsDouble] otherwise. *)
Theorem init_from_rdkit_mol_keeps_atoms_and_bonds
    (molecule : RdkitMol) (arg : FgArgument FG Factory)
    (placer_ids : option (list Z)) :
  Forall (bond_in_range (length (GetAtoms molecule))) (GetBonds molecule) →
  match GetConformer molecule with
  | Raise e => init_from_rdkit_mol molecule arg placer_ids = Raise e
  | Ok conformer =>
      ∃ bb,
        init_from_rdkit_mol molecule arg placer_ids = Ok bb ∧
        _atoms (bb_molecule bb) =
          (λ a, mkAtom (GetIdx a) (GetAtomicNum a) (GetFormalCharge a))
            <$> GetAtoms molecule ∧
        _position_matrix (bb_molecule bb) = GetPositions conformer ∧
        length (_bonds (bb_molecule bb)) = length (GetBonds molecule) ∧
        ∀ i b,
          GetBonds molecule !! i = Some b →
          ∃ a1 a2,
            _atoms (bb_molecule bb) !! GetBeginAtomIdx b = Some a1 ∧
            _atoms (bb_molecule bb) !! GetEndAtomIdx b = Some a2 ∧
            _bonds (bb_molecule bb) !! i =
              Some (mkBond a1 a2 (order_of b)) ∧
            (get_order (mkBond a1 a2 (order_of b)) = Order9 ↔
               GetBondType b = DATIVE)
  end.
Proof.
  intros Hrange. unfold init_from_rdkit_mol.
  set (atoms := (λ a, mkAtom (GetIdx a) (GetAtomicNum a) (GetFormalCharge a))
                  <$> GetAtoms molecule).
  assert (length atoms = length (GetAtoms molecule)) as Hlen
    by apply length_fmap.
  rewrite <- Hlen in Hrange.
  destruct (bonds_of_in_range atoms _ Hrange) as (bonds & -> & Hbl & Hnth).
  cbn [result_bind].
  destruct (GetConformer molecule) as [conformer|e]; cbn [result_bind];
    [|reflexivity].
  eexists. split; [reflexivity|].
  cbn [bb_molecule _atoms _bonds _position_matrix].
  split_and!; [done|done|done|].
  intros i b Hi. destruct (Hnth i b Hi) as (a1 & a2 & Ha1 & Ha2 & Hb).
  exists a1, a2. split_and!; [done|done|done|].
  cbn [get_order]. unfold order_of. by destruct (GetBondType b).
Qed.

End RdkitFacts.

(** ** More about [run] *)

Section MoreDriverFacts.
Context {E : Type} `{!GATools E}.

Lemma ga_loop_cwd root_dir ga_input xs pop (w : World E) :
  cwd (ga_loop root_dir ga_input xs pop w).2 =
    match last (generations_of xs pop (ga_input_pop_size w) (env w)) with
    | Some g => (root_dir ++ [pretty (g_index g)]) ++ ["selected"]
    | None => cwd w
    end.
Proof.
  revert pop w. induction xs as [|x xs IH]; intros pop w; [reflexivity|].
  cbn [ga_loop generations_of]. unfold bind.
  destruct (decide (len pop = ga_input_pop_size w)) as [Heq|Hne].
  - rewrite (generation_right_size _ _ _ _ _ Heq). cbn zeta. cbn [fst snd].
    apply Nat.eqb_eq in Heq. rewrite Heq.
    set (g := generation_of x pop (ga_input_pop_size w) (env w)).
    destruct (g_exit g) eqn:Hexit; [reflexivity|].
    rewrite IH. cbn [ga_input_pop_size env cwd]. rewrite last_cons.
    by destruct (last _).
  - rewrite (generation_wrong_size _ _ _ _ _ Hne). cbn [fst snd].
    apply Nat.eqb_neq in Hne. by rewrite Hne.
Qed.

Lemma generations_of_indices n pop size (e : E) :
  g_index <$> generations_of (seq 1 n) pop size e =
    seq 1 (length (generations_of (seq 1 n) pop size e)).
Proof.
  apply list_eq. intros i. rewrite list_lookup_fmap.
  destruct (generations_of (seq 1 n) pop size e !! i) as [g|] eqn:Hg.
  - cbn. rewrite (generations_of_index _ _ _ _ _ _ _ Hg).
    apply lookup_lt_Some in Hg. symmetry. by apply lookup_seq_lt.
  - cbn. apply lookup_ge_None in Hg. symmetry. apply lookup_ge_None.
    by rewrite length_seq.
Qed.

Lemma progress_updates_generations dir ga_input size
    (gens : list (Generation E)) :
  progress_updates (gens ≫= generation_events dir ga_input size) =
    g_survivors <$> gens.
Proof.
  induction gens as [|g gens IH]; [reflexivity|].
  rewrite bind_cons. unfold progress_updates in *. rewrite omap_app, IH.
  reflexivity.
Qed.

Lemma written_generations dir ga_input size (gens : list (Generation E)) :
  written (gens ≫= generation_events dir ga_input size) =
    g_survivors <$> gens.
Proof.
  induction gens as [|g gens IH]; [reflexivity|].
  rewrite bind_cons. unfold written in *. rewrite omap_app, IH.
  reflexivity.
Qed.

Lemma made_dirs_generations dir ga_input size (gens : list (Generation E)) :
  made_dirs (gens ≫= generation_events dir ga_input size) =
    (g_index <$> gens) ≫= dirs_of_generation dir.
Proof.
  induction gens as [|g gens IH]; [reflexivity|].
  rewrite fmap_cons, !bind_cons. unfold made_dirs in *.
  rewrite omap_app, IH. reflexivity.
Qed.

(** X8.  With [num_generations = 0] the loop body is never entered: the
    run ends normally with the population of the initial pass, whatever
    its size, after creating [output] and [output/initial] only, and
    goes straight from the initial pass to the final cleanup, plot, tar
    and archive. *)
Theorem run_without_generations ga_input (w : World E) :
  num_generations ga_input = 0 →
  let s := start_of ga_input (cwd w) (env w) in
  let r := run ga_input w in
  r.1 = Ok (s_pop s) ∧
  log r.2 = log w ++ s_events s ++ final_events (cwd w) ∧
  made_dirs (s_events s ++ final_events (cwd w)) =
    [cwd w ++ ["output"]; (cwd w ++ ["output"]) ++ ["initial"]] ∧
  selection_sizes (s_events s ++ final_events (cwd w)) = [].
Proof.
  intros Hzero s r.
  destruct (run_structure ga_input w) as (Hres & Hlog & _).
  fold s r in Hres, Hlog. rewrite Hzero in Hres, Hlog.
  cbn [seq generations_of loop_outcome] in Hres, Hlog.
  split_and!; [done|done| |].
  - unfold made_dirs. rewrite omap_app. fold (made_dirs (s_events s)).
    unfold s. rewrite made_dirs_s_events. reflexivity.
  - unfold s, start_of. cbn [s_events].
    by destruct (String.eqb (init_func_name ga_input) "load").
Qed.


(** X10.  [progress.update] is called once on the population of the
    initial pass and once per executed generation, on its survivors,
    and never elsewhere; [pop.write] in the loop is called on the same
    survivors. *)
Theorem progress_updated_once_per_generation ga_input (w : World E) :
  let s := start_of ga_input (cwd w) (env w) in
  let root_dir := cwd w ++ ["output"] in
  let gens :=
    generations_of (seq 1 (num_generations ga_input)) (s_pop s)
      (s_pop_size s) (s_env s) in
  let r := run ga_input w in
  ∃ acts,
    log r.2 = log w ++ acts ∧
    progress_updates acts = s_pop s :: (g_survivors <$> gens) ∧
    length (progress_updates acts) = S (length gens) ∧
    written acts = written (s_events s) ++ (g_survivors <$> gens).
Proof.
  intros s root_dir gens r.
  destruct (run_structure ga_input w) as (_ & Hlog & _).
  fold s root_dir gens r in Hlog.
  eexists. split; [exact Hlog|].
  assert (progress_updates
            (s_events s
               ++ (gens ≫= generation_events root_dir ga_input (s_pop_size s))
               ++ (if loop_outcome (seq 1 (num_generations ga_input))
                        (s_pop s) (s_pop_size s) (s_env s) is Ok _
                   then final_events (cwd w) else []))
          = s_pop s :: (g_survivors <$> gens)) as Hupdates.
  { unfold progress_updates. rewrite !omap_app.
    fold (progress_updates
            (gens ≫= generation_events root_dir ga_input (s_pop_size s))).
    rewrite progress_updates_generations.
    assert (omap (λ ev, if ev is EvProgressUpdate pop then Some pop else None)
              (s_events s) = [s_pop s]) as ->.
    { unfold s, start_of. cbn [s_events s_pop].
      by destruct (String.eqb (init_func_name ga_input) "load"). }
    destruct (loop_outcome _ _ _ _); cbn; by rewrite app_nil_r. }
  split_and!; [exact Hupdates| |].
  - rewrite Hupdates. cbn. by rewrite length_fmap.
  - unfold written. rewrite !omap_app.
    fold (written
            (gens ≫= generation_events root_dir ga_input (s_pop_size s))).
    rewrite written_generations. fold (written (s_events s)).
    destruct (loop_outcome _ _ _ _); cbn; by rewrite app_nil_r.
Qed.

(** X11.  A run that ends normally leaves the process in the directory
    it was launched from.  A run aborted by the size check leaves it
    where the check found it: in [initial] when no generation was
    executed, else in the [selected] directory of the last executed
    generation. *)
Theorem run_returns_to_launch_directory ga_input (w : World E) :
  let s := start_of ga_input (cwd w) (env w) in
  let root_dir := cwd w ++ ["output"] in
  let gens :=
    generations_of (seq 1 (num_generations ga_input)) (s_pop s)
      (s_pop_size s) (s_env s) in
  let r := run ga_input w in
  cwd r.2 =
    match r.1 with
    | Ok _ => cwd w
    | Raise _ =>
        match last gens with
        | Some g => (root_dir ++ [pretty (g_index g)]) ++ ["selected"]
        | None => root_dir ++ ["initial"]
        end
    end.
Proof.
  intros s root_dir gens r. unfold r.
  rewrite run_split. unfold bind. rewrite prologue_start.
  cbn zeta. cbn [fst snd]. fold s root_dir.
  match goal with
  | |- context [ga_loop root_dir ga_input ?xs (s_pop s) ?w1] =>
      pose proof (ga_loop_cwd root_dir ga_input xs (s_pop s) w1) as Hcwd;
      set (l := ga_loop root_dir ga_input xs (s_pop s) w1) in *
  end.
  cbn [ga_input_pop_size env cwd] in Hcwd. fold gens in Hcwd.
  destruct l.1 as [pop|e].
  - by rewrite finish_events.
  - cbn [fst snd]. exact Hcwd.
Qed.

(** X12.  When the population of the initial pass does not have
    [ga_input.pop_size] members, the run fails with
    [PopulationSizeError] before generation 1: no directory of a
    generation is created, no strategy of the loop is called, and the
    final cleanup, tar and archive do not happen. *)
Theorem wrong_initial_size_aborts_before_generation_one
    ga_input (w : World E) :
  let s := start_of ga_input (cwd w) (env w) in
  let r := run ga_input w in
  0 < num_generations ga_input →
  len (s_pop s) ≠ s_pop_size s →
  r.1 = Raise (PopulationSizeError "Population has the wrong size.") ∧
  log r.2 = log w ++ s_events s ∧
  filter is_move (s_events s) = [EvArchiveOutput] ∧
  made_dirs (s_events s) =
    [cwd w ++ ["output"]; (cwd w ++ ["output"]) ++ ["initial"]].
Proof.
  intros s r Hpos Hwrong.
  destruct (run_structure ga_input w) as (Hres & Hlog & _).
  fold s r in Hres, Hlog.
  destruct (num_generations ga_input) as [|n]; [lia|].
  cbn [seq generations_of loop_outcome] in Hres, Hlog.
  apply Nat.eqb_neq in Hwrong. rewrite Hwrong in Hres, Hlog.
  cbn in Hlog. rewrite app_nil_r in Hlog.
  split_and!; [done|done| |].
  - apply filter_is_move_s_events.
  - apply made_dirs_s_events.
Qed.

End MoreDriverFacts.

(** ** The directories of a run *)

Lemma pretty_N_go_head (c : ascii) (x : N) :
  (∀ d, pretty_N_char d ≠ c) →
  ∀ s s', s ≠ String c s' → pretty_N_go x s ≠ String c s'.
Proof.
  intros Hc. induction (N.lt_wf_0 x) as [x _ IH]. intros s s' Hs.
  assert (x = 0 ∨ 0 < x)%N as [->|Hpos] by lia.
  - by rewrite pretty_N_go_0.
  - rewrite pretty_N_go_step by done. apply IH.
    + by apply N.div_lt.
    + intros [= Heq _]. by apply (Hc (x `mod` 10)%N).
Qed.

(** [str(x)] is never the name [initial]. *)
Lemma pretty_nat_not_initial (x : nat) : pretty x ≠ "initial".
Proof.
  unfold pretty, pretty_nat, pretty, pretty_N.
  case_decide; [discriminate|].
  apply pretty_N_go_head; [|discriminate].
  intros d. unfold pretty_N_char. by repeat case_match.
Qed.

Lemma dirs_of_generation_NoDup (root_dir : path) (xs : list nat) :
  NoDup xs → NoDup (xs ≫= dirs_of_generation root_dir).
Proof.
  intros Hxs. apply NoDup_bind; [| |done].
  - intros x1 x2 d _ _ Hd1 Hd2. unfold dirs_of_generation in *.
    rewrite !elem_of_cons, elem_of_nil in Hd1, Hd2.
    destruct Hd1 as [->|[->|[]]]; destruct Hd2 as [Heq|[Heq|[]]].
    + apply app_inv_head in Heq. injection Heq as Heq.
      by apply (inj pretty).
    + apply (f_equal length) in Heq. rewrite !length_app in Heq.
      cbn in Heq. lia.
    + apply (f_equal length) in Heq. rewrite !length_app in Heq.
      cbn in Heq. lia.
    + apply app_inj_tail in Heq as [Heq _].
      apply app_inv_head in Heq. injection Heq as Heq.
      by apply (inj pretty).
  - intros x _. unfold dirs_of_generation.
    apply NoDup_cons. split; [|apply NoDup_singleton].
    rewrite elem_of_cons, elem_of_nil. intros [Heq|[]].
    apply (f_equal length) in Heq. rewrite !length_app in Heq.
    cbn in Heq. lia.
Qed.

Lemma generation_dirs_of_generations (root_dir : path) (n : nat)
    (xs : list nat) :
  Forall (λ x, x ∈ seq 1 n) xs →
  filter (λ d, d ∈ (λ x, root_dir ++ [pretty x]) <$> seq 1 n)
    (xs ≫= dirs_of_generation root_dir) =
    (λ x, root_dir ++ [pretty x]) <$> xs.
Proof.
  induction 1 as [|x xs Hx _ IH]; [reflexivity|].
  rewrite bind_cons, filter_app, IH, fmap_cons.
  unfold dirs_of_generation.
  rewrite filter_cons_True; last first.
  { apply list_elem_of_fmap. by exists x. }
  rewrite filter_cons_False; [reflexivity|].
  intros (y & Heq & _)%list_elem_of_fmap.
  apply (f_equal length) in Heq. rewrite !length_app in Heq.
  cbn in Heq. lia.
Qed.

Section DirectoryFacts.
Context {E : Type} `{!GATools E}.

Lemma run_made_dirs ga_input (w : World E) :
  let s := start_of ga_input (cwd w) (env w) in
  let root_dir := cwd w ++ ["output"] in
  let gens :=
    generations_of (seq 1 (num_generations ga_input)) (s_pop s)
      (s_pop_size s) (s_env s) in
  let r := run ga_input w in
  ∃ acts,
    log r.2 = log w ++ acts ∧
    g_index <$> gens = seq 1 (length gens) ∧
    length gens ≤ num_generations ga_input ∧
    made_dirs acts =
      [root_dir; root_dir ++ ["initial"]]
      ++ (seq 1 (length gens) ≫= dirs_of_generation root_dir).
Proof.
  intros s root_dir gens r.
  destruct (run_structure ga_input w) as (_ & Hlog & _).
  fold s root_dir gens r in Hlog.
  eexists. split; [exact Hlog|].
  pose proof (generations_of_indices (num_generations ga_input) (s_pop s)
                (s_pop_size s) (s_env s)) as Hidx.
  fold gens in Hidx.
  pose proof (generations_of_length (seq 1 (num_generations ga_input))
                (s_pop s) (s_pop_size s) (s_env s)) as Hlen.
  fold gens in Hlen. rewrite length_seq in Hlen.
  assert (made_dirs
            (s_events s
               ++ (gens ≫= generation_events root_dir ga_input (s_pop_size s))
               ++ (if loop_outcome (seq 1 (num_generations ga_input))
                        (s_pop s) (s_pop_size s) (s_env s) is Ok _
                   then final_events (cwd w) else []))
          = [root_dir; root_dir ++ ["initial"]]
            ++ (seq 1 (length gens) ≫= dirs_of_generation root_dir))
    as Hmade.
  { unfold made_dirs. rewrite !omap_app.
    fold (made_dirs (s_events s)).
    fold (made_dirs
            (gens ≫= generation_events root_dir ga_input (s_pop_size s))).
    rewrite made_dirs_generations, Hidx.
    unfold s. rewrite made_dirs_s_events. fold root_dir.
    destruct (loop_outcome _ _ _ _); cbn [omap list_omap final_events];
      by rewrite app_nil_r. }
  by split_and!.
Qed.

(** X13.  The directories a run creates are [output], [output/initial]
    and, for each executed generation [x], [output/x] and
    [output/x/selected], in this order; the generations executed are
    numbered 1, 2, ... without a gap.  No directory is created twice, so
    inside a fresh [output] no [os.mkdir] of the run meets an existing
    directory. *)
Theorem run_creates_each_directory_once ga_input (w : World E) :
  let s := start_of ga_input (cwd w) (env w) in
  let root_dir := cwd w ++ ["output"] in
  let gens :=
    generations_of (seq 1 (num_generations ga_input)) (s_pop s)
      (s_pop_size s) (s_env s) in
  let r := run ga_input w in
  ∃ acts,
    log r.2 = log w ++ acts ∧
    g_index <$> gens = seq 1 (length gens) ∧
    length gens ≤ num_generations ga_input ∧
    made_dirs acts =
      [root_dir; root_dir ++ ["initial"]]
      ++ (seq 1 (length gens) ≫= dirs_of_generation root_dir) ∧
    NoDup (made_dirs acts).
Proof.
  intros s root_dir gens r.
  destruct (run_made_dirs ga_input w) as (acts & Hlog & Hidx & Hlen & Hmade).
  fold s root_dir gens r in Hlog, Hidx, Hlen, Hmade.
  exists acts. split_and!; [done|done|done|done|].
  rewrite Hmade. apply NoDup_app. split_and!.
  - apply NoDup_cons. split; [|apply NoDup_singleton].
    rewrite elem_of_cons, elem_of_nil. intros [Heq|[]].
    apply (f_equal length) in Heq. rewrite !length_app in Heq.
    cbn in Heq. lia.
  - intros d Hd (x & Hdx & _)%list_elem_of_bind.
    unfold dirs_of_generation in Hdx.
    rewrite !elem_of_cons, elem_of_nil in Hd, Hdx.
    destruct Hd as [->|[->|[]]]; destruct Hdx as [Heq|[Heq|[]]].
    + apply (f_equal length) in Heq. rewrite !length_app in Heq.
      cbn in Heq. lia.
    + apply (f_equal length) in Heq. rewrite !length_app in Heq.
      cbn in Heq. lia.
    + apply app_inv_head in Heq. injection Heq as Heq.
      by apply (pretty_nat_not_initial x).
    + apply (f_equal length) in Heq. rewrite !length_app in Heq.
      cbn in Heq. lia.
  - apply dirs_of_generation_NoDup, NoDup_seq.
Qed.

(** X14.  A run creates one directory of a generation per executed
    generation, [output/1] to [output/k] for [k] executed generations,
    in this order. *)
Theorem one_generation_directory_per_executed_generation
    ga_input (w : World E) :
  let s := start_of ga_input (cwd w) (env w) in
  let root_dir := cwd w ++ ["output"] in
  let gens :=
    generations_of (seq 1 (num_generations ga_input)) (s_pop s)
      (s_pop_size s) (s_env s) in
  let r := run ga_input w in
  ∃ acts,
    log r.2 = log w ++ acts ∧
    generation_dirs root_dir (num_generations ga_input) acts =
      (λ x, root_dir ++ [pretty x]) <$> seq 1 (length gens) ∧
    length (generation_dirs root_dir (num_generations ga_input) acts) =
      length gens.
Proof.
  intros s root_dir gens r.
  destruct (run_made_dirs ga_input w) as (acts & Hlog & _ & Hlen & Hmade).
  fold s root_dir gens r in Hlog, Hlen, Hmade.
  exists acts. split; [exact Hlog|].
  assert (generation_dirs root_dir (num_generations ga_input) acts =
            (λ x, root_dir ++ [pretty x]) <$> seq 1 (length gens)) as Hdirs.
  { unfold generation_dirs. rewrite Hmade, filter_app.
    rewrite generation_dirs_of_generations; last first.
    { apply Forall_forall. intros x Hx. apply elem_of_seq in Hx.
      apply elem_of_seq. lia. }
    rewrite filter_cons_False; last first.
    { intros (y & Heq & _)%list_elem_of_fmap.
      apply (f_equal length) in Heq. rewrite !length_app in Heq.
      cbn in Heq. lia. }
    rewrite filter_cons_False; [reflexivity|].
    intros (y & Heq & _)%list_elem_of_fmap.
    apply app_inv_head in Heq. injection Heq as Heq.
    by apply (pretty_nat_not_initial y). }
  split; [exact Hdirs|]. by rewrite Hdirs, length_fmap, length_seq.
Qed.

End DirectoryFacts.

(** ** File names and extensions *)

Lemma append_cons (a : ascii) (s t : string) :
  String a s +:+ t = String a (s +:+ t).
Proof. reflexivity. Qed.

Lemma append_nil_l (t : string) : "" +:+ t = t.
Proof. reflexivity. Qed.

Lemma append_nil_r (s : string) : s +:+ "" = s.
Proof.
  induction s as [|a s IH]; [reflexivity|]. by rewrite append_cons, IH.
Qed.

Lemma append_assoc (s1 s2 s3 : string) :
  (s1 +:+ s2) +:+ s3 = s1 +:+ (s2 +:+ s3).
Proof.
  induction s1 as [|a s1 IH]; [reflexivity|].
  by rewrite !append_cons, IH.
Qed.

Lemma length_append (s1 s2 : string) :
  String.length (s1 +:+ s2) = String.length s1 + String.length s2.
Proof.
  induction s1 as [|a s1 IH]; [reflexivity|].
  rewrite append_cons. cbn [String.length]. by rewrite IH.
Qed.

Lemma substring_all (s : string) : substring 0 (String.length s) s = s.
Proof.
  induction s as [|a s IH]; [reflexivity|].
  cbn [String.length substring]. by rewrite IH.
Qed.

Lemma substring_prefix (s1 s2 : string) :
  substring 0 (String.length s1) (s1 +:+ s2) = s1.
Proof.
  induction s1 as [|a s1 IH]; [by destruct s2|].
  rewrite append_cons. cbn [String.length substring]. by rewrite IH.
Qed.

Lemma substring_suffix (s1 s2 : string) :
  substring (String.length s1) (String.length s2) (s1 +:+ s2) = s2.
Proof.
  induction s1 as [|a s1 IH]; [apply substring_all|].
  rewrite append_cons. cbn [String.length substring]. exact IH.
Qed.

(** Cutting a string in two at an index inside it loses nothing. *)
Lemma substring_split (p : string) (k : nat) :
  k ≤ String.length p →
  substring 0 k p +:+ substring k (String.length p - k) p = p.
Proof.
  revert k. induction p as [|a p IH]; intros k Hk.
  - cbn in Hk. by replace k with 0 by lia.
  - destruct k as [|k].
    + rewrite Nat.sub_0_r.
      change (substring 0 0 (String a p)) with "".
      rewrite append_nil_l. apply substring_all.
    + cbn [substring String.length Nat.sub]. rewrite append_cons. f_equal.
      apply IH. cbn in Hk. lia.
Qed.

Lemma rfind_from_range (c : ascii) (s : string) (i : Z) :
  OsPath.rfind_from c s i = (-1)%Z ∨
  (i ≤ OsPath.rfind_from c s i < i + Z.of_nat (String.length s))%Z.
Proof.
  revert i. induction s as [|a s IH]; intros i; [by left|].
  cbn [OsPath.rfind_from String.length].
  destruct (IH (i + 1)%Z) as [Hnone|Hin].
  - rewrite Hnone. cbn. destruct (Ascii.eqb a c); [right; lia|by left].
  - destruct (Z.leb_spec 0 (OsPath.rfind_from c s (i + 1))) as [_|Hneg].
    + right. lia.
    + destruct (Ascii.eqb a c); [right; lia|by left].
Qed.

Lemma rfind_from_append (c : ascii) (s1 s2 : string) (i : Z) :
  (0 ≤ i)%Z →
  OsPath.rfind_from c (s1 +:+ s2) i =
    if (0 <=? OsPath.rfind_from c s2 (i + Z.of_nat (String.length s1)))%Z
    then OsPath.rfind_from c s2 (i + Z.of_nat (String.length s1))
    else OsPath.rfind_from c s1 i.
Proof.
  revert i. induction s1 as [|a s1 IH]; intros i Hi.
  - rewrite append_nil_l. cbn [String.length OsPath.rfind_from].
    rewrite Z.add_0_r.
    destruct (rfind_from_range c s2 i) as [->|Hin]; [reflexivity|].
    destruct (Z.leb_spec 0 (OsPath.rfind_from c s2 i)); [reflexivity|lia].
  - rewrite append_cons. cbn [String.length OsPath.rfind_from].
    rewrite IH by lia.
    replace (i + 1 + Z.of_nat (String.length s1))%Z
      with (i + Z.of_nat (S (String.length s1)))%Z by lia.
    destruct (0 <=? OsPath.rfind_from c s2
                      (i + Z.of_nat (S (String.length s1))))%Z eqn:Hfound;
      [by rewrite Hfound|reflexivity].
Qed.

Lemma rfind_from_absent (c : ascii) (s : string) (i : Z) :
  occurs c s = false → OsPath.rfind_from c s i = (-1)%Z.
Proof.
  revert i. induction s as [|a s IH]; intros i Hno; [reflexivity|].
  cbn in Hno. apply orb_false_iff in Hno as [Ha Hs].
  cbn [OsPath.rfind_from]. rewrite (IH _ Hs), Ha. reflexivity.
Qed.

Lemma skip_leading_dots_cases n p filenameIndex dotIndex :
  OsPath.skip_leading_dots n p filenameIndex dotIndex = (p, "") ∨
  OsPath.skip_leading_dots n p filenameIndex dotIndex =
    (OsPath.slice_to p dotIndex, OsPath.slice_from p dotIndex).
Proof.
  revert filenameIndex. induction n as [|n IH]; intros filenameIndex;
    [by left|].
  cbn [OsPath.skip_leading_dots].
  destruct (get (Z.to_nat filenameIndex) p) as [a|]; [|by right].
  destruct (Ascii.eqb a OsPath.extsep); [apply IH|by right].
Qed.

(** Root and extension put together give the path back. *)
Lemma splitext_round_trip (p : string) :
  (OsPath.splitext p).1 +:+ (OsPath.splitext p).2 = p.
Proof.
  unfold OsPath.splitext.
  destruct (Z.ltb_spec (OsPath.rfind OsPath.sep p)
              (OsPath.rfind OsPath.extsep p)) as [Hlt|_];
    [|apply append_nil_r].
  destruct (skip_leading_dots_cases
              (Z.to_nat (OsPath.rfind OsPath.extsep p
                         - (OsPath.rfind OsPath.sep p + 1)))
              p (OsPath.rfind OsPath.sep p + 1)
              (OsPath.rfind OsPath.extsep p)) as [->| ->];
    [apply append_nil_r|].
  cbn [fst snd]. unfold OsPath.slice_to, OsPath.slice_from.
  apply substring_split. unfold OsPath.rfind in *.
  destruct (rfind_from_range OsPath.extsep p 0) as [Hnone|Hin]; [|lia].
  destruct (rfind_from_range OsPath.sep p 0); lia.
Qed.

Section ExtensionFacts.
Context {FG Factory : Type} `{!FunctionalGroups FG Factory} `{!RdkitIO}.

(** X15.  A path that passes the extension check of [init_from_file]
    ends, letter for letter, in [.mol], [.sdf] or [.pdb], and the reader
    chosen is the one [_init_funcs] holds for that ending. *)
Theorem accepted_path_ends_with_its_extension (path : string)
    (f : init_func) :
  init_func_for path = Ok f →
  ∃ root extension,
    path = root +:+ extension ∧
    extension ∈ [".mol"; ".sdf"; ".pdb"] ∧
    f = reader_of extension.
Proof.
  unfold init_func_for. pose proof (splitext_round_trip path) as Hsplit.
  destruct (OsPath.splitext path) as [root extension].
  cbn [fst snd] in Hsplit.
  destruct (_init_funcs !! extension) as [f'|] eqn:Hlookup; [|done].
  intros [= ->]. exists root, extension. split; [done|].
  assert (extension ∈ [".mol"; ".sdf"; ".pdb"]) as Hin.
  { destruct (decide (extension ∈ [".mol"; ".sdf"; ".pdb"])) as [|Hnot];
      [done|].
    apply _init_funcs_None in Hnot. congruence. }
  split; [done|].
  rewrite !elem_of_cons, elem_of_nil in Hin.
  destruct Hin as [->|[->|[->|[]]]]; vm_compute in Hlookup;
    injection Hlookup as <-; reflexivity.
Qed.

(** X16.  A file name that does not start with a dot, contains no
    separator and is followed by [.mol], [.sdf] or [.pdb] passes the
    extension check, in whatever directory it lies and whatever dots the
    name or the directory contain: the extension found is exactly that
    ending and the path goes to the reader of that extension. *)
Theorem plain_file_name_is_accepted (dir stem extension : string)
    (a : ascii) (rest : string) :
  dir = "" ∨ (∃ d, dir = d +:+ "/") →
  stem = String a rest →
  a ≠ "."%char →
  occurs "/" stem = false →
  extension ∈ [".mol"; ".sdf"; ".pdb"] →
  OsPath.splitext (dir +:+ stem +:+ extension) = (dir +:+ stem, extension) ∧
  init_func_for (dir +:+ stem +:+ extension) = Ok (reader_of extension).
Proof.
  intros Hdir Hstem Hdot Hsep Hext.
  set (p := dir +:+ stem +:+ extension).
  set (n1 := Z.of_nat (String.length dir)).
  set (n2 := Z.of_nat (String.length stem)).
  assert (OsPath.rfind_from "." extension (n1 + n2) = (n1 + n2)%Z ∧
          occurs "/" extension = false ∧
          String.length extension = 4) as (Hext_dot & Hext_sep & Hext_len).
  { rewrite !elem_of_cons, elem_of_nil in Hext.
    destruct Hext as [->|[->|[->|[]]]]; split_and!; try reflexivity;
      cbn; destruct (Z.leb_spec 0 (-1)); try lia; reflexivity. }
  assert (OsPath.rfind OsPath.extsep p = (n1 + n2)%Z) as Hdotidx.
  { unfold OsPath.rfind, p, OsPath.extsep.
    rewrite rfind_from_append, rfind_from_append by lia.
    rewrite !Z.add_0_l. fold n1 n2. rewrite Hext_dot.
    by rewrite !(proj2 (Z.leb_le 0 (n1 + n2))) by lia. }
  assert (OsPath.rfind OsPath.sep p = (n1 - 1)%Z) as Hsepidx.
  { unfold OsPath.rfind, p, OsPath.sep.
    rewrite rfind_from_append by lia.
    rewrite (rfind_from_absent "/" (stem +:+ extension)); last first.
    { clear -Hsep Hext_sep. induction stem as [|b s IH]; [done|].
      rewrite append_cons. cbn [occurs] in Hsep |- *.
      apply orb_false_iff in Hsep as [-> Hs]. by apply IH. }
    cbn [Z.leb]. destruct Hdir as [->|[d ->]]; [reflexivity|].
    rewrite rfind_from_append by lia. cbn.
    subst n1. rewrite length_append. cbn.
    destruct (Z.leb_spec 0 (0 + Z.of_nat (String.length d))); lia. }
  assert (OsPath.splitext p = (dir +:+ stem, extension)) as Hsplit.
  { unfold OsPath.splitext. rewrite Hdotidx, Hsepidx.
    assert (0 < String.length stem) as Hpos by (rewrite Hstem; cbn; lia).
    destruct (Z.ltb_spec (n1 - 1) (n1 + n2)) as [_|Hge]; [|lia].
    replace (Z.to_nat (n1 + n2 - (n1 - 1 + 1)))
      with (S (String.length rest)) by (subst n2; rewrite Hstem; cbn; lia).
    cbn [OsPath.skip_leading_dots].
    replace (Z.to_nat (n1 - 1 + 1)) with (0 + String.length dir) by lia.
    unfold p. rewrite <- append_correct2. rewrite Hstem at 1.
    rewrite append_cons. cbn [get].
    destruct (Ascii.eqb_spec a OsPath.extsep) as [->|_]; [done|].
    unfold OsPath.slice_to, OsPath.slice_from.
    assert (Z.to_nat (n1 + n2) = String.length (dir +:+ stem)) as ->
      by (rewrite length_append; lia).
    rewrite <- (append_assoc dir stem extension).
    set (q := dir +:+ stem).
    rewrite substring_prefix.
    replace (String.length (q +:+ extension) - String.length q)
      with (String.length extension) by (rewrite length_append; lia).
    by rewrite substring_suffix. }
  split; [exact Hsplit|].
  unfold init_func_for. rewrite Hsplit.
  rewrite !elem_of_cons, elem_of_nil in Hext.
  by destruct Hext as [->|[->|[->|[]]]].
Qed.

End ExtensionFacts.

(** ** The further properties on sample inputs *)

(** X2 on the sample block, asked for its last and its first group. *)
Lemma get_functional_groups_in_range_witness :
  Forall (λ i, - 2 ≤ i < 2)%Z [-1; 0]%Z ∧
  (get_functional_groups (FG := SimpleGroup) sample_block
     (ManyIds [-1; 0]%Z)).2 = None.
Proof.
  assert (Forall (λ i, - 2 ≤ i < 2)%Z [-1; 0]%Z) as Hrange
    by (repeat constructor; lia).
  split; [exact Hrange|].
  exact (proj1 (get_functional_groups_ids_in_range
                  (FG := SimpleGroup) sample_block [-1; 0]%Z Hrange)).
Defined.

(** X3 on the sample block: the id 2 after the id 0. *)
Lemma get_functional_groups_out_of_range_witness :
  get_functional_groups (FG := SimpleGroup) sample_block
    (ManyIds ([0] ++ 2 :: [1])%Z) =
    ([hydroxyl], Some (OtherError "IndexError")).
Proof.
  refine (proj1 (get_functional_groups_id_out_of_range
                   (FG := SimpleGroup) sample_block [0%Z] 2%Z [1%Z] _ _)).
  - repeat constructor; cbn; lia.
  - cbn. lia.
Defined.

(** X7 on water, with its conformer and without one. *)
Lemma init_from_rdkit_mol_witness :
  Forall (bond_in_range (length (GetAtoms water))) (GetBonds water) ∧
  (∃ bb,
     init_from_rdkit_mol (FunctionalGroups0 := simple_groups) water
       (Several []) None = Ok bb ∧
     _position_matrix (bb_molecule bb) = water_positions ∧
     length (_bonds (bb_molecule bb)) = 2) ∧
  init_from_rdkit_mol (FunctionalGroups0 := simple_groups)
    water_without_conformer (Several []) None =
    Raise (ValueError "Bad Conformer Id").
Proof.
  assert (Forall (bond_in_range (length (GetAtoms water))) (GetBonds water))
    as Hrange by (repeat constructor; cbn; lia).
  split_and!; [exact Hrange| |].
  - destruct (init_from_rdkit_mol_keeps_atoms_and_bonds
                (FunctionalGroups0 := simple_groups) water (Several []) None
                Hrange) as (bb & Hbb & _ & Hpos & Hbonds & _).
    by exists bb.
  - exact (init_from_rdkit_mol_keeps_atoms_and_bonds
             (FunctionalGroups0 := simple_groups) water_without_conformer
             (Several []) None Hrange).
Defined.

(** X8 on a run of no generation. *)
Lemma run_without_generations_witness :
  num_generations no_generation = 0 ∧
  (run (GATools0 := sample_tools [ethane; propane] None)
     no_generation sample_world).1 =
    Ok (Population_of [ethane; propane]).
Proof.
  split; [reflexivity|].
  exact (proj1 (run_without_generations
                  (GATools0 := sample_tools [ethane; propane] None)
                  no_generation sample_world eq_refl)).
Defined.


(** X12 on strategies whose optimization loses a member. *)
Lemma wrong_initial_size_witness :
  (run (GATools0 := lossy_tools [ethane; propane])
     one_generation sample_world).1 =
    Raise (PopulationSizeError "Population has the wrong size.").
Proof.
  refine (proj1 (wrong_initial_size_aborts_before_generation_one
                   (GATools0 := lossy_tools [ethane; propane])
                   one_generation sample_world _ _)).
  - cbn. lia.
  - vm_compute. discriminate.
Defined.

(** X15 on a path with a directory. *)
Lemma accepted_path_witness :
  init_func_for "data/block.mol" = Ok (MolFromMolFile false false) ∧
  ∃ root extension,
    "data/block.mol" = root +:+ extension ∧
    extension ∈ [".mol"; ".sdf"; ".pdb"].
Proof.
  split; [reflexivity|].
  destruct (accepted_path_ends_with_its_extension "data/block.mol"
              (MolFromMolFile false false) eq_refl)
    as (root & extension & Hpath & Hext & _).
  by exists root, extension.
Defined.

(** X16 on a name with dots and dashes in a directory. *)
Lemma plain_file_name_witness :
  init_func_for ("data/" +:+ "v1.2-block" +:+ ".sdf") =
    Ok (MolFromMolFile false false).
Proof.
  refine (proj2 (plain_file_name_is_accepted "data/" "v1.2-block" ".sdf"
                   "v" "1.2-block" _ eq_refl _ eq_refl _)).
  - right. by exists "data".
  - discriminate.
  - apply elem_of_cons. right. apply elem_of_cons. by left.
Defined.

(** ** [compare] *)

Lemma cmp_all_members_node ms ps :
  cmp_all_members (mkCompared ms ps) = ms ++ cmp_all_members_list ps.
Proof. reflexivity. Qed.

Lemma cmp_map_members_node f ms ps :
  cmp_map_members f (mkCompared ms ps) =
    mkCompared (f <$> ms) (cmp_map_members_list f ps).
Proof.
  cbn [cmp_map_members]. f_equal.
  induction ps as [|q qs IH]; [reflexivity|].
  cbn [cmp_map_members_list]. by rewrite <- IH.
Qed.

Lemma Compared_nested_ind (P : Compared → Prop) :
  (∀ ms ps, Forall P ps → P (mkCompared ms ps)) → ∀ pop, P pop.
Proof.
  intros Hnode. fix IH 1. intros [ms ps]. apply Hnode.
  induction ps as [|q qs IHqs]; constructor; [apply IH|exact IHqs].
Qed.

(** Mapping over the tree is mapping over the flattened members. *)
Lemma cmp_all_members_map f pop :
  cmp_all_members (cmp_map_members f pop) = f <$> cmp_all_members pop.
Proof.
  induction pop as [ms ps IH] using Compared_nested_ind.
  rewrite cmp_map_members_node, !cmp_all_members_node, fmap_app. f_equal.
  induction IH as [|q qs Hq _ IHqs]; [reflexivity|].
  cbn [cmp_map_members_list cmp_all_members_list].
  by rewrite fmap_app, Hq, IHqs.
Qed.

Section CompareFacts.
Context {E : Type} `{!CompareTools E}.

(** The loop only ever appends to the record of what was done. *)
Lemma compare_populations_log_extends output_dir (st : CompareState E) i
    pop_paths :
  ∃ more,
    cmp_log (compare_populations output_dir st i pop_paths) =
      cmp_log st ++ more.
Proof.
  revert st i. induction pop_paths as [|pop_path rest IH]; intros st i.
  - exists []. cbn. by rewrite app_nil_r.
  - cbn [compare_populations].
    destruct (IH (compare_population output_dir st i pop_path) (S i))
      as [more Hmore].
    rewrite Hmore. unfold compare_population at 1. cbn [cmp_log].
    rewrite <- app_assoc. by eexists.
Qed.

(** What one turn of the loop over the populations adds. *)
Lemma compare_populations_step output_dir (st : CompareState E) i pop_paths :
  let st' := compare_populations output_dir st i pop_paths in
  shared_events (cmp_log st') = shared_events (cmp_log st) ∧
  filter is_plot_or_normalize (cmp_log st') =
    filter is_plot_or_normalize (cmp_log st) ∧
  write_dirs (cmp_log st') =
    write_dirs (cmp_log st)
    ++ ((λ j, output_dir ++ ["pop" +:+ pretty j])
          <$> seq i (length pop_paths)) ∧
  cmp_members (cmp_pop st') = cmp_members (cmp_pop st) ∧
  ∃ calls subs,
    fitness_calls (cmp_log st') = fitness_calls (cmp_log st) ++ calls ∧
    cmp_populations (cmp_pop st') = cmp_populations (cmp_pop st) ++ subs ∧
    length calls = length pop_paths ∧
    length subs = length pop_paths ∧
    (∀ k sp,
       calls !! k = Some sp →
       CmpWrite (output_dir ++ ["pop" +:+ pretty (i + k)]) sp
         ∈ cmp_log st' ∧
       (∃ loaded,
          sp = cmp_map_members
                 (reset_individual (output_dir ++ ["pop" +:+ pretty (i + k)]))
                 loaded) ∧
       ∃ e0,
         subs !! k =
           Some (mkCompared (cmp_calculate_member_fitness sp e0).1 [])).
Proof.
  revert st i. induction pop_paths as [|pop_path rest IH]; intros st i.
  - cbn. rewrite !app_nil_r. split_and!; try done.
    exists [], []. rewrite !app_nil_r. split_and!; try done.
  - cbn zeta. cbn [compare_populations].
    set (st1 := compare_population output_dir st i pop_path).
    destruct (IH st1 (S i))
      as (Hshared & Hplots & Hdirs & Hmembers & calls & subs & Hcalls
          & Hsubs & Hlc & Hls & Hnth).
    set (st' := compare_populations output_dir st1 (S i) rest) in *.
    set (sp_dir := output_dir ++ ["pop" +:+ pretty i]).
    set (sp := cmp_map_members (reset_individual sp_dir)
                 (cmp_load pop_path (cmp_env st)).1).
    assert (cmp_log st1 =
              cmp_log st ++ [CmpLoad pop_path; CmpWrite sp_dir sp;
                             CmpFitness sp]) as Hlog1 by reflexivity.
    split_and!.
    + rewrite Hshared, Hlog1. unfold shared_events. rewrite omap_app.
      cbn. by rewrite app_nil_r.
    + rewrite Hplots, Hlog1, filter_app. cbn. by rewrite app_nil_r.
    + rewrite Hdirs, Hlog1. unfold write_dirs. rewrite omap_app.
      cbn [omap list_omap length seq fmap list_fmap].
      by rewrite <- app_assoc.
    + by rewrite Hmembers.
    + exists (sp :: calls),
        (mkCompared
           (cmp_calculate_member_fitness sp
              (cmp_load pop_path (cmp_env st)).2).1 [] :: subs).
      split_and!.
      * rewrite Hcalls, Hlog1. unfold fitness_calls. rewrite omap_app.
        cbn [omap list_omap]. by rewrite <- app_assoc.
      * rewrite Hsubs. unfold st1, compare_population. cbn [cmp_pop].
        unfold add_subpopulation. cbn [cmp_populations].
        by rewrite <- app_assoc.
      * cbn. by rewrite Hlc.
      * cbn. by rewrite Hls.
      * intros [|k] sp' Hk; cbn in Hk.
        -- injection Hk as <-. rewrite Nat.add_0_r. split_and!.
           ++ destruct (compare_populations_log_extends output_dir st1
                          (S i) rest) as [more Hext].
              fold st' in Hext. rewrite Hext, Hlog1. apply elem_of_app.
              left. apply elem_of_app. right. apply elem_of_cons. right.
              apply elem_of_cons. by left.
           ++ by eexists.
           ++ by eexists.
        -- replace (i + S k) with (S i + k) by lia. by apply Hnth.
Qed.

(** The trace of [compare]: what the loop over the compared
    populations has recorded when it ends, then the actions after it. *)
Lemma compare_log inp launch_dir (e : E) :
  ∃ (st1 : CompareState E) tail_events calls,
    cmp_log (compare inp launch_dir e).1 = cmp_log st1 ++ tail_events ∧
    tail_events =
      (if normalization_func inp then
         let nor :=
           cmp_normalize_fitness_values (cmp_pop st1) (cmp_env st1) in
         [ CmpNormalize (cmp_pop st1);
           CmpPlotProgressParams nor.1 "param_comparison.png";
           CmpPlotSubpopulations nor.1 "fitness_comparison.png";
           CmpPrintMembers nor.1 ]
       else
         [ CmpPlotSubpopulations (cmp_pop st1) "fitness_comparison.png";
           CmpPrintMembers (cmp_pop st1) ])
      ++ [CmpShared (EvChdir launch_dir); CmpShared EvArchiveOutput] ∧
    head (cmp_log st1) = Some (CmpShared EvArchiveOutput) ∧
    shared_events (cmp_log st1) =
      [ EvArchiveOutput;
        EvMkdir (launch_dir ++ ["output"]);
        EvCopyFile (cmp_input_file inp)
          (launch_dir ++ ["output"; basename (cmp_input_file inp)]);
        EvChdir (launch_dir ++ ["output"]) ] ∧
    filter is_plot_or_normalize (cmp_log st1) = [] ∧
    write_dirs (cmp_log st1) =
      (λ j, launch_dir ++ ["output"; "pop" +:+ pretty j])
        <$> seq 0 (length (comparison_pops inp)) ∧
    cmp_members (cmp_pop st1) = [] ∧
    fitness_calls (cmp_log st1) = calls ∧
    length calls = length (comparison_pops inp) ∧
    length (cmp_populations (cmp_pop st1)) = length (comparison_pops inp) ∧
    (∀ k sp,
       calls !! k = Some sp →
       CmpWrite (launch_dir ++ ["output"; "pop" +:+ pretty k]) sp
         ∈ cmp_log st1 ∧
       (∃ loaded,
          sp = cmp_map_members
                 (reset_individual
                    (launch_dir ++ ["output"; "pop" +:+ pretty k]))
                 loaded) ∧
       ∃ e0,
         cmp_populations (cmp_pop st1) !! k =
           Some (mkCompared (cmp_calculate_member_fitness sp e0).1 [])).
Proof.
  set (st0 :=
         mkCompareState
           [ CmpShared EvArchiveOutput;
             CmpShared (EvMkdir (launch_dir ++ ["output"]));
             CmpShared
               (EvCopyFile (cmp_input_file inp)
                  (launch_dir ++ ["output"; basename (cmp_input_file inp)]));
             CmpReadInput (cmp_input_file inp);
             CmpShared (EvChdir (launch_dir ++ ["output"])) ]
           e (mkCompared [] [])).
  set (st1 := compare_populations (launch_dir ++ ["output"]) st0 0
                (comparison_pops inp)).
  destruct (compare_populations_step (launch_dir ++ ["output"]) st0 0
              (comparison_pops inp))
    as (Hshared & Hplots & Hdirs & Hmembers & calls & subs & Hcalls
        & Hsubs & Hlc & Hls & Hnth).
  destruct (compare_populations_log_extends (launch_dir ++ ["output"]) st0 0
              (comparison_pops inp)) as [more Hmore].
  fold st1 in Hshared, Hplots, Hdirs, Hmembers, Hcalls, Hsubs, Hnth, Hmore.
  exists st1,
    ((if normalization_func inp then
        let nor :=
          cmp_normalize_fitness_values (cmp_pop st1) (cmp_env st1) in
        [ CmpNormalize (cmp_pop st1);
          CmpPlotProgressParams nor.1 "param_comparison.png";
          CmpPlotSubpopulations nor.1 "fitness_comparison.png";
          CmpPrintMembers nor.1 ]
      else
        [ CmpPlotSubpopulations (cmp_pop st1) "fitness_comparison.png";
          CmpPrintMembers (cmp_pop st1) ])
       ++ [CmpShared (EvChdir launch_dir); CmpShared EvArchiveOutput]),
    calls.
  split_and!.
  - unfold compare. cbn zeta. fold st0. fold st1. cbn [fst cmp_log].
    destruct (normalization_func inp); cbn [cmp_log cmp_pop];
      rewrite <- ?app_assoc; reflexivity.
  - reflexivity.
  - rewrite Hmore. reflexivity.
  - rewrite Hshared. reflexivity.
  - rewrite Hplots. reflexivity.
  - rewrite Hdirs. cbn [st0 cmp_log write_dirs omap list_omap app].
    apply list_fmap_ext. intros _ j _. by rewrite <- app_assoc.
  - rewrite Hmembers. reflexivity.
  - rewrite Hcalls. reflexivity.
  - exact Hlc.
  - rewrite Hsubs. exact Hls.
  - intros k sp Hk. destruct (Hnth k sp Hk) as (Hw & Hl & e0 & He0).
    cbn [Nat.add] in Hw, Hl. rewrite <- app_assoc in Hw, Hl.
    split_and!; [exact Hw|exact Hl|].
    exists e0. rewrite Hsubs. exact He0.
Qed.

(** What the first call that reads the encapsulating population gets
    is the population the loop has built. *)
Lemma encapsulating_after_loop (t tail_events : list CompareEvent) :
  filter is_plot_or_normalize t = [] →
  encapsulating (t ++ tail_events) = encapsulating tail_events.
Proof.
  intros Hnone. unfold encapsulating. rewrite omap_app.
  assert (omap (λ ev, match ev with
                      | CmpNormalize pop => Some pop
                      | CmpPlotSubpopulations pop _ => Some pop
                      | _ => None
                      end) t = []) as ->; [|reflexivity].
  induction t as [|ev t IH]; [reflexivity|].
  rewrite filter_cons in Hnone.
  destruct ev; cbn in Hnone |- *; try discriminate; by apply IH.
Qed.

(** X17.  [compare] moves the [output] folder aside twice, as its first
    and as its last action, and never calls [kill_macromodel]: of the
    actions it shares with [run] it performs exactly
    [archive_output], [mkdir output], the copy of the input file,
    [chdir output], [chdir launch_dir], [archive_output]. *)
Theorem compare_archives_without_cleanup inp launch_dir (e : E) :
  let t := cmp_log (compare inp launch_dir e).1 in
  shared_events t =
    [ EvArchiveOutput;
      EvMkdir (launch_dir ++ ["output"]);
      EvCopyFile (cmp_input_file inp)
        (launch_dir ++ ["output"; basename (cmp_input_file inp)]);
      EvChdir (launch_dir ++ ["output"]);
      EvChdir launch_dir;
      EvArchiveOutput ] ∧
  (EvKillMacromodel ∉ shared_events t) ∧
  head t = Some (CmpShared EvArchiveOutput) ∧
  last t = Some (CmpShared EvArchiveOutput).
Proof.
  cbn zeta.
  destruct (compare_log inp launch_dir e)
    as (st1 & tl & calls & Hlog & Htl & Hhead & Hshared & _).
  assert (shared_events (cmp_log (compare inp launch_dir e).1) =
            [ EvArchiveOutput;
              EvMkdir (launch_dir ++ ["output"]);
              EvCopyFile (cmp_input_file inp)
                (launch_dir ++ ["output"; basename (cmp_input_file inp)]);
              EvChdir (launch_dir ++ ["output"]);
              EvChdir launch_dir;
              EvArchiveOutput ]) as Ht.
  { rewrite Hlog. unfold shared_events in *. rewrite omap_app, Hshared, Htl.
    destruct (normalization_func inp); reflexivity. }
  split_and!.
  - exact Ht.
  - rewrite Ht. rewrite !elem_of_cons, elem_of_nil. intros Hin.
    repeat (destruct Hin as [Hin|Hin]; [discriminate|]). exact Hin.
  - rewrite Hlog. destruct (cmp_log st1); [discriminate|exact Hhead].
  - rewrite Hlog, Htl, last_app.
    destruct (normalization_func inp); reflexivity.
Qed.

(** The loop over the compared populations, turn by turn: [envs] holds
    the hidden state in which each turn starts, and after the last. *)
Lemma compare_populations_chain output_dir (st : CompareState E) i
    pop_paths :
  let st' := compare_populations output_dir st i pop_paths in
  ∃ envs calls subs,
    length envs = S (length pop_paths) ∧
    envs !! 0 = Some (cmp_env st) ∧
    fitness_calls (cmp_log st') = fitness_calls (cmp_log st) ++ calls ∧
    cmp_populations (cmp_pop st') = cmp_populations (cmp_pop st) ++ subs ∧
    loaded_paths (cmp_log st') = loaded_paths (cmp_log st) ++ pop_paths ∧
    ∀ k pop_path e_k,
      pop_paths !! k = Some pop_path →
      envs !! k = Some e_k →
      let loaded := cmp_load pop_path e_k in
      let sp :=
        cmp_map_members
          (reset_individual (output_dir ++ ["pop" +:+ pretty (i + k)]))
          loaded.1 in
      let fit := cmp_calculate_member_fitness sp loaded.2 in
      calls !! k = Some sp ∧
      subs !! k = Some (mkCompared fit.1 []) ∧
      envs !! S k = Some fit.2.
Proof.
  revert st i. induction pop_paths as [|pop_path rest IH]; intros st i.
  - cbn zeta. cbn [compare_populations].
    exists [cmp_env st], [], []. rewrite !app_nil_r.
    split_and!; try reflexivity.
    intros k pop_path e_k Hk. by rewrite lookup_nil in Hk.
  - cbn zeta. cbn [compare_populations].
    set (st1 := compare_population output_dir st i pop_path).
    destruct (IH st1 (S i))
      as (envs & calls & subs & Hlen & Hhead & Hcalls & Hsubs & Hloads
          & Hnth).
    set (sp_dir := output_dir ++ ["pop" +:+ pretty i]).
    set (loaded := cmp_load pop_path (cmp_env st)).
    set (sp := cmp_map_members (reset_individual sp_dir) loaded.1).
    set (fit := cmp_calculate_member_fitness sp loaded.2).
    assert (cmp_log st1 =
              cmp_log st ++ [CmpLoad pop_path; CmpWrite sp_dir sp;
                             CmpFitness sp]) as Hlog1 by reflexivity.
    exists (cmp_env st :: envs), (sp :: calls), (mkCompared fit.1 [] :: subs).
    split_and!.
    + cbn. by rewrite Hlen.
    + reflexivity.
    + rewrite Hcalls, Hlog1. unfold fitness_calls. rewrite omap_app.
      cbn [omap list_omap]. by rewrite <- app_assoc.
    + rewrite Hsubs. unfold st1, compare_population. cbn [cmp_pop].
      unfold add_subpopulation. cbn [cmp_populations].
      by rewrite <- app_assoc.
    + rewrite Hloads, Hlog1. unfold loaded_paths. rewrite omap_app.
      cbn [omap list_omap]. by rewrite <- app_assoc.
    + intros [|k] pop_path' e_k Hk Hek; cbn in Hk, Hek.
      * injection Hk as <-. injection Hek as <-. rewrite Nat.add_0_r.
        split_and!; [reflexivity|reflexivity|].
        change ((cmp_env st :: envs) !! 1) with (envs !! 0).
        rewrite Hhead. reflexivity.
      * replace (i + S k) with (S i + k) by lia.
        exact (Hnth k pop_path' e_k Hk Hek).
Qed.

(** X18.  When the loop of [compare] has ended, the encapsulating
    population has no member of its own and one subpopulation per path
    of [comparison_pops], in the order of the paths.  Turn [k] of the
    loop loads the population from the [k]-th path, resets its members
    for [output/pop<k>], calculates their fitness, and the [k]-th
    subpopulation is the flat population of the members that
    [calculate_member_fitness] returned; each call works in the hidden
    state the one before it left, the first load in the state [compare]
    was started in. *)
Theorem compare_keeps_one_subpopulation_per_path inp launch_dir (e : E) :
  let t := cmp_log (compare inp launch_dir e).1 in
  ∃ merged envs,
    encapsulating t = Some merged ∧
    cmp_members merged = [] ∧
    loaded_paths t = comparison_pops inp ∧
    length (cmp_populations merged) = length (comparison_pops inp) ∧
    length (fitness_calls t) = length (comparison_pops inp) ∧
    length envs = S (length (comparison_pops inp)) ∧
    envs !! 0 = Some e ∧
    ∀ k pop_path e_k,
      comparison_pops inp !! k = Some pop_path →
      envs !! k = Some e_k →
      let loaded := cmp_load pop_path e_k in
      let sp :=
        cmp_map_members
          (reset_individual
             (launch_dir ++ ["output"; "pop" +:+ pretty k]))
          loaded.1 in
      let fit := cmp_calculate_member_fitness sp loaded.2 in
      fitness_calls t !! k = Some sp ∧
      cmp_populations merged !! k = Some (mkCompared fit.1 []) ∧
      envs !! S k = Some fit.2.
Proof.
  cbn zeta.
  set (st0 :=
         mkCompareState
           [ CmpShared EvArchiveOutput;
             CmpShared (EvMkdir (launch_dir ++ ["output"]));
             CmpShared
               (EvCopyFile (cmp_input_file inp)
                  (launch_dir ++ ["output"; basename (cmp_input_file inp)]));
             CmpReadInput (cmp_input_file inp);
             CmpShared (EvChdir (launch_dir ++ ["output"])) ]
           e (mkCompared [] [])).
  set (st1 := compare_populations (launch_dir ++ ["output"]) st0 0
                (comparison_pops inp)).
  destruct (compare_populations_chain (launch_dir ++ ["output"]) st0 0
              (comparison_pops inp))
    as (envs & calls & subs & Hlen & Hhead & Hcalls & Hsubs & Hloads & Hnth).
  destruct (compare_populations_step (launch_dir ++ ["output"]) st0 0
              (comparison_pops inp))
    as (_ & Hplots & _ & Hmembers & calls' & subs' & Hcalls' & Hsubs'
        & Hlc & Hls & _).
  fold st1 in Hcalls, Hsubs, Hloads, Hplots, Hmembers, Hcalls', Hsubs'.
  cbn [st0 cmp_log cmp_pop cmp_env cmp_populations cmp_members fitness_calls
       loaded_paths omap list_omap app] in Hcalls, Hsubs, Hloads, Hhead,
       Hmembers, Hcalls', Hsubs'.
  assert (calls' = calls) as -> by congruence.
  assert (subs' = subs) as -> by congruence.
  assert (filter is_plot_or_normalize (cmp_log st1) = []) as Hnone
    by (rewrite Hplots; reflexivity).
  assert (∃ tail_events,
            cmp_log (compare inp launch_dir e).1 =
              cmp_log st1 ++ tail_events ∧
            encapsulating tail_events = Some (cmp_pop st1) ∧
            fitness_calls tail_events = [] ∧
            loaded_paths tail_events = [])
    as (tl & Hlog & Henc & Hfit & Hload).
  { unfold compare. cbn zeta. fold st0. fold st1. cbn [fst cmp_log].
    destruct (normalization_func inp); cbn [cmp_log cmp_pop];
      rewrite <- ?app_assoc; eexists; (split; [reflexivity|]);
      by split_and!. }
  assert (fitness_calls (cmp_log (compare inp launch_dir e).1) = calls)
    as Hwhole.
  { rewrite Hlog. unfold fitness_calls in *.
    by rewrite omap_app, Hfit, app_nil_r. }
  exists (cmp_pop st1), envs. split_and!.
  - by rewrite Hlog, (encapsulating_after_loop _ _ Hnone).
  - exact Hmembers.
  - rewrite Hlog. unfold loaded_paths in *.
    by rewrite omap_app, Hload, app_nil_r.
  - by rewrite Hsubs.
  - by rewrite Hwhole.
  - exact Hlen.
  - exact Hhead.
  - intros k pop_path e_k Hk Hek.
    destruct (Hnth k pop_path e_k Hk Hek) as (Hc & Hs & He).
    cbn [Nat.add] in Hc, Hs, He. rewrite <- app_assoc in Hc, Hs, He.
    cbn [app] in Hc, Hs, He.
    split_and!; [by rewrite Hwhole|by rewrite Hsubs|exact He].
Qed.

(** X19.  The population handed to the [k]-th fitness calculation is the
    one written to [output/pop<k>], and every member of it, at any
    depth, has had the results of earlier calculations removed:
    [fitness], [unscaled_fitness] and [progress_params] are [None],
    [fitness_fail] is [True], and its file lies directly in
    [output/pop<k>]. *)
Theorem compare_resets_members_before_fitness inp launch_dir (e : E) k sp :
  let t := cmp_log (compare inp launch_dir e).1 in
  fitness_calls t !! k = Some sp →
  CmpWrite (launch_dir ++ ["output"; "pop" +:+ pretty k]) sp ∈ t ∧
  Forall
    (λ ind,
       fitness (ind_molecule ind) = None ∧
       unscaled_fitness ind = None ∧
       fitness_fail ind = true ∧
       progress_params ind = None ∧
       ∃ name,
         file (ind_molecule ind) =
           launch_dir ++ ["output"; "pop" +:+ pretty k; name])
    (cmp_all_members sp).
Proof.
  cbn zeta.
  destruct (compare_log inp launch_dir e)
    as (st1 & tl & calls & Hlog & Htl & _ & _ & _ & _ & _
        & Hcalls & _ & _ & Hnth).
  assert (fitness_calls (cmp_log (compare inp launch_dir e).1) = calls)
    as ->.
  { rewrite Hlog. unfold fitness_calls in *. rewrite omap_app, Hcalls, Htl.
    destruct (normalization_func inp); cbn; by rewrite app_nil_r. }
  intros Hk. destruct (Hnth k sp Hk) as (Hwrite & (loaded & ->) & _).
  split.
  - rewrite Hlog. apply elem_of_app. by left.
  - rewrite cmp_all_members_map. apply Forall_fmap, Forall_forall.
    intros ind _. cbn. split_and!; try reflexivity.
    exists (basename (file (ind_molecule ind))).
    rewrite <- !app_assoc. reflexivity.
Qed.

(** X20.  [compare] normalizes the fitness values and plots
    [param_comparison.png] only when the input file defines a
    normalization function, each once and in that order, and plots
    [fitness_comparison.png] once in either case, after them and of the
    population as normalization left it. *)
Theorem compare_normalizes_only_when_configured inp launch_dir (e : E) :
  let t := cmp_log (compare inp launch_dir e).1 in
  ∃ merged,
    encapsulating t = Some merged ∧
    if normalization_func inp then
      ∃ e0,
        let normalized := (cmp_normalize_fitness_values merged e0).1 in
        filter is_plot_or_normalize t =
          [ CmpNormalize merged;
            CmpPlotProgressParams normalized "param_comparison.png";
            CmpPlotSubpopulations normalized "fitness_comparison.png" ]
    else
      filter is_plot_or_normalize t =
        [ CmpPlotSubpopulations merged "fitness_comparison.png" ].
Proof.
  cbn zeta.
  destruct (compare_log inp launch_dir e)
    as (st1 & tl & calls & Hlog & Htl & _ & _ & Hnone & _).
  exists (cmp_pop st1). split.
  - rewrite Hlog, (encapsulating_after_loop _ _ Hnone), Htl.
    destruct (normalization_func inp); reflexivity.
  - rewrite Hlog, filter_app, Hnone, Htl.
    destruct (normalization_func inp); [exists (cmp_env st1)|]; reflexivity.
Qed.

(** X21.  The loaded populations are written to [output/pop0],
    [output/pop1], ... in the order of [comparison_pops], one directory
    per path, and no two of them to the same directory. *)
Theorem compare_writes_distinct_directories inp launch_dir (e : E) :
  let dirs := write_dirs (cmp_log (compare inp launch_dir e).1) in
  dirs = ((λ j, launch_dir ++ ["output"; "pop" +:+ pretty j])
            <$> seq 0 (length (comparison_pops inp))) ∧
  NoDup dirs.
Proof.
  cbn zeta.
  destruct (compare_log inp launch_dir e)
    as (st1 & tl & calls & Hlog & Htl & _ & _ & _ & Hdirs & _).
  assert (write_dirs (cmp_log (compare inp launch_dir e).1) =
            (λ j, launch_dir ++ ["output"; "pop" +:+ pretty j])
              <$> seq 0 (length (comparison_pops inp))) as ->.
  { rewrite Hlog. unfold write_dirs in *. rewrite omap_app, Hdirs, Htl.
    destruct (normalization_func inp); cbn; by rewrite app_nil_r. }
  split; [reflexivity|].
  apply NoDup_fmap_2; [|apply NoDup_seq].
  intros i j Heq. apply app_inv_head in Heq.
  injection Heq as Heq. by apply (inj pretty).
Qed.

End CompareFacts.

(** X19 on the sample comparison: the second population, whose members
    come from a dump with fitness values. *)
Lemma compare_resets_members_witness :
  let t := cmp_log (compare sample_comparison ["home"] 0).1 in
  let sp :=
    cmp_map_members (reset_individual ["home"; "output"; "pop1"])
      (mkCompared [dumped ethane] [mkCompared [dumped propane] []]) in
  fitness_calls t !! 1 = Some sp ∧
  CmpWrite ["home"; "output"; "pop1"] sp ∈ t ∧
  Forall
    (λ ind,
       fitness (ind_molecule ind) = None ∧
       unscaled_fitness ind = None ∧
       fitness_fail ind = true ∧
       progress_params ind = None ∧
       ∃ name,
         file (ind_molecule ind) = ["home"; "output"; "pop1"; name])
    (cmp_all_members sp).
Proof.
  cbn zeta. split; [reflexivity|].
  apply (compare_resets_members_before_fitness sample_comparison ["home"] 0 1).
  reflexivity.
Defined.
